(** * gtsam_reduced: incremental Bayes-tree maintenance, hybrid assignment
      resolution and hard-equality factors

    A shallow embedding of

    - [nonlinear/NonlinearEquality.h]   (module [NonlinearEq]),
    - [hybrid/HybridDiscreteFactor.cpp] and [hybrid/HybridBayesTree.cpp]
      (module [Hybrid]),
    - [inference/ISAM-inl.h]            (module [ISAM]),
    - [discrete/DiscreteKey.h]          (in module [Hybrid]),
    - [discrete/DiscreteValues.cpp]     (module [Discrete]),

    together with the properties stated about them.  C++ exceptions are
    modelled by the [result] type; in-place mutation of the tree by an
    explicit state that survives a thrown exception. *)

From Stdlib Require Import PrimFloat.
From stdpp Require Import gmap list strings pretty sorting.

Set Default Proof Using "Type".

(** ** Exceptions *)

(** The exceptions thrown by the modelled code.  [invalid_argument] is
    [std::invalid_argument]; [out_of_range] is a failed checked lookup;
    the remaining three are the taxonomy of the specification (section 7). *)
Inductive exn : Type :=
  | invalid_argument (what : string)
  | out_of_range
  | StructuralError
  | NumericDegeneracy
  | UnknownKey.

(** A computation that either returns or throws. *)
Inductive result (A : Type) : Type :=
  | Ok (a : A)
  | Err (e : exn).
Arguments Ok {A} a.
Arguments Err {A} e.

#[global] Instance result_ret : MRet result := λ A a, Ok a.
#[global] Instance result_bind : MBind result := λ A B k r,
  match r with
  | Ok a => k a
  | Err e => Err e
  end.

Definition of_option {A} (e : exn) (o : option A) : result A :=
  match o with
  | Some a => Ok a
  | None => Err e
  end.

(** ** NonlinearEquality.h *)

Module NonlinearEq.

Section NonlinearEquality.

(** Template parameters [Config], [Key], [T] and the linear-algebra value
    types of gtsam's base library. *)
Context {Config Key T Vector Matrix : Type}.

(** [c[key]]: the checked lookup of a configuration. *)
Variable Config_at : Config → Key → option T.
(** [dim], [logmap] of the Lie value type, [(std::string) key]. *)
Variable dim : T → nat.
Variable logmap : T → T → Vector.
Variable Key_to_string : Key → string.
(** [eye], [zero], [repeat], [inner_prod], [Vector::size] and the
    default-constructed [Matrix]. *)
Variable eye : nat → Matrix.
Variable zero : nat → Vector.
Variable repeat : nat → float → Vector.
Variable inner_prod : Vector → Vector → float.
Variable Vector_size : Vector → nat.
Variable Matrix_default : Matrix.

(** [noiseModel::Constrained::All(d)]. *)
Inductive SharedDiagonal : Type :=
  | Constrained_All (d : nat).

(** The factor: the base class keeps the noise model and the key. *)
Record NonlinearEquality : Type := {
  noiseModel_ : SharedDiagonal;
  key_ : Key;
  feasible_ : T;
  allow_error_ : bool;
  error_gain_ : float;
  compare_ : T → T → bool
}.

(** [Base::unwhitenedError], inherited from [NonlinearFactor1]. *)
Variable unwhitenedError : NonlinearEquality → Config → Vector.

(** Constructor - forces exact evaluation. *)
Definition NonlinearEquality_exact (j : Key) (feasible : T)
    (compare : T → T → bool) : NonlinearEquality :=
  {| noiseModel_ := Constrained_All (dim feasible);
     key_ := j;
     feasible_ := feasible;
     allow_error_ := false;
     error_gain_ := infinity;
     compare_ := compare |}.

(** Constructor - allows inexact evaluation. *)
Definition NonlinearEquality_gain (j : Key) (feasible : T)
    (error_gain : float) (compare : T → T → bool) : NonlinearEquality :=
  {| noiseModel_ := Constrained_All (dim feasible);
     key_ := j;
     feasible_ := feasible;
     allow_error_ := true;
     error_gain_ := error_gain;
     compare_ := compare |}.

(** actual error function calculation *)
Definition error (f : NonlinearEquality) (c : Config) : result float :=
  xj ← of_option out_of_range (Config_at c (key_ f));
  let e := unwhitenedError f c in
  if allow_error_ f || negb (compare_ f xj (feasible_ f))
  then Ok (error_gain_ f * inner_prod e e)%float
  else Ok 0%float.

(** error function; [H] is the optional out-parameter for the Jacobian:
    [None] is [boost::none], [Some m] a reference to a matrix holding [m].
    The second component of the result is the matrix after the call. *)
Definition evaluateError (f : NonlinearEquality) (xj : T)
    (H : option Matrix) : result (Vector * option Matrix) :=
  let nj := dim (feasible_ f) in
  if allow_error_ f then
    Ok (logmap xj (feasible_ f), (λ _, eye nj) <$> H)
  else if compare_ f (feasible_ f) xj then
    Ok (zero nj, (λ _, eye nj) <$> H)
  else
    match H with
    | Some _ =>
        Err (invalid_argument
               ("Linearization point not feasible for "
                  +:+ Key_to_string (key_ f) +:+ "!"))
    | None => Ok (repeat nj infinity, None)
    end.

(** [GaussianFactor(key, A, b, model)]. *)
Record GaussianFactor : Type := {
  gf_key : Key;
  gf_A : Matrix;
  gf_b : Vector;
  gf_model : SharedDiagonal
}.

Definition linearize (f : NonlinearEquality) (x : Config) : result GaussianFactor :=
  xj ← of_option out_of_range (Config_at x (key_ f));
  '(b, A) ← evaluateError f xj (Some Matrix_default);
  let model := Constrained_All (Vector_size b) in
  Ok {| gf_key := key_ f;
        gf_A := default Matrix_default A;
        gf_b := b;
        gf_model := model |}.


(** The text of the exception thrown at an infeasible point. *)
Definition infeasible_msg (f : NonlinearEquality) : string :=
  "Linearization point not feasible for " +:+ Key_to_string (key_ f) +:+ "!".

(** *** Properties *)

Lemma evaluateError_exact_infeasible f xj H0 :
  allow_error_ f = false →
  compare_ f (feasible_ f) xj = false →
  evaluateError f xj (Some H0) = Err (invalid_argument (infeasible_msg f)).
Proof.
  intros Hmode Hcmp. unfold evaluateError. by rewrite Hmode, Hcmp.
Qed.

Lemma evaluateError_gain f xj H0 :
  allow_error_ f = true →
  evaluateError f xj (Some H0)
  = Ok (logmap xj (feasible_ f), Some (eye (dim (feasible_ f)))).
Proof.
  intros Hmode. unfold evaluateError. by rewrite Hmode.
Qed.

(** C5 (as amended).  At a point [xj] that the stored compare function does
    not declare equal to the feasible value, with the Jacobian requested:
    a factor in exact mode throws [invalid_argument] from [evaluateError],
    and so does [linearize]; a factor built with an error gain throws
    nothing, [evaluateError] returns [logmap xj feasible] with the identity
    Jacobian and [linearize] returns the factor built from them. *)
Theorem infeasible_point_reporting (f : NonlinearEquality) (x : Config) (xj : T)
    (H0 : Matrix) :
  Config_at x (key_ f) = Some xj →
  compare_ f (feasible_ f) xj = false →
  if allow_error_ f then
    evaluateError f xj (Some H0)
    = Ok (logmap xj (feasible_ f), Some (eye (dim (feasible_ f))))
    ∧ linearize f x
      = Ok {| gf_key := key_ f;
              gf_A := eye (dim (feasible_ f));
              gf_b := logmap xj (feasible_ f);
              gf_model := Constrained_All (Vector_size (logmap xj (feasible_ f))) |}
  else
    evaluateError f xj (Some H0) = Err (invalid_argument (infeasible_msg f))
    ∧ linearize f x = Err (invalid_argument (infeasible_msg f)).
Proof.
  intros Hat Hcmp. destruct (allow_error_ f) eqn:Hmode.
  - split; [by apply evaluateError_gain|].
    unfold linearize. rewrite Hat. simpl.
    by rewrite (evaluateError_gain _ _ _ Hmode).
  - split; [by apply evaluateError_exact_infeasible|].
    unfold linearize. rewrite Hat. simpl.
    by rewrite (evaluateError_exact_infeasible _ _ _ Hmode Hcmp).
Qed.

(** C10.  On a configuration holding [xj] for its key, [error] of a factor
    in exact mode is exactly [0.0] when [compare_ xj feasible_] holds and the
    gain times the inner product of the unwhitened error with itself
    otherwise; the exact-mode constructor builds such a factor, with an
    infinite gain and the compare function it is given. *)
Theorem error_exact_mode (f : NonlinearEquality) (c : Config) (xj : T) :
  allow_error_ f = false →
  Config_at c (key_ f) = Some xj →
  error f c
  = Ok (if compare_ f xj (feasible_ f) then 0%float
        else (error_gain_ f
              * inner_prod (unwhitenedError f c) (unwhitenedError f c))%float)
  ∧ ∀ j feasible compare,
      let exact := NonlinearEquality_exact j feasible compare in
      allow_error_ exact = false
      ∧ error_gain_ exact = infinity
      ∧ key_ exact = j
      ∧ feasible_ exact = feasible
      ∧ compare_ exact = compare.
Proof.
  intros Hmode Hat. split; [|done].
  unfold error. rewrite Hat, Hmode. simpl.
  by destruct (compare_ f xj (feasible_ f)).
Qed.

(** *** equals, and more on evaluateError and linearize *)

(** The factors behind a [const Factor<Config>&]: a [NonlinearEquality], or
    a factor of another class, for which the [dynamic_cast] gives [NULL]. *)
Context {OtherFactor : Type}.

Inductive Factor : Type :=
  | IsNonlinearEquality (p : NonlinearEquality)
  | IsOther (o : OtherFactor).

(** [Base::equals], called with its default tolerance: it sees the part of
    a factor that the base class holds, the noise model and the key. *)
Variable Base_equals : SharedDiagonal → Key → SharedDiagonal → Key → bool.

(** Check if two factors are equal *)
Definition equals (f : NonlinearEquality) (g : Factor) (tol : float) : bool :=
  match g with
  | IsOther _ => false
  | IsNonlinearEquality p =>
      if negb (Base_equals (noiseModel_ f) (key_ f) (noiseModel_ p) (key_ p))
      then false
      else compare_ f (feasible_ f) (feasible_ p)
  end.

(** X1.  [evaluateError] throws in one case only: a factor in exact mode, a
    value that [compare_ feasible_ xj] rejects, and the Jacobian requested;
    the exception is the [invalid_argument] naming the key.  Without a
    Jacobian requested it throws nothing, and at such a value it returns
    the vector of infinities. *)
Theorem evaluateError_throws_iff (f : NonlinearEquality) (xj : T)
    (H : option Matrix) (e : exn) :
  (evaluateError f xj H = Err e ↔
     allow_error_ f = false ∧ compare_ f (feasible_ f) xj = false
     ∧ is_Some H ∧ e = invalid_argument (infeasible_msg f))
  ∧ (allow_error_ f = false → compare_ f (feasible_ f) xj = false →
     evaluateError f xj None = Ok (repeat (dim (feasible_ f)) infinity, None)).
Proof.
  unfold evaluateError. split.
  - destruct (allow_error_ f), (compare_ f (feasible_ f) xj), H as [H0|];
      simpl; split; try done; try (by intros (? & ? & ? & ?));
      try (by intros (? & ? & [] & ?)).
    + by intros [= <-].
    + by intros (_ & _ & _ & ->).
  - by intros -> ->.
Qed.

(** X2.  [linearize] returns a factor exactly when the configuration holds
    a value for the key and the factor allows error or [compare_ feasible_ xj]
    accepts the value.  The factor it returns is on the key of the
    constraint, its matrix is the identity of the dimension of the feasible
    value, its vector is [logmap xj feasible_] when error is allowed and zero
    otherwise, and its noise model is the constrained model of the size of
    that vector. *)
Theorem linearize_returns_iff (f : NonlinearEquality) (x : Config)
    (g : GaussianFactor) :
  linearize f x = Ok g ↔
    ∃ xj, Config_at x (key_ f) = Some xj
      ∧ (allow_error_ f = true ∨ compare_ f (feasible_ f) xj = true)
      ∧ let b := if allow_error_ f then logmap xj (feasible_ f)
                 else zero (dim (feasible_ f)) in
        g = {| gf_key := key_ f;
               gf_A := eye (dim (feasible_ f));
               gf_b := b;
               gf_model := Constrained_All (Vector_size b) |}.
Proof.
  unfold linearize, evaluateError.
  destruct (Config_at x (key_ f)) as [xj|]; simpl.
  - destruct (allow_error_ f) eqn:Hmode; simpl.
    + split.
      * intros [= <-]. exists xj. split; [done|]. split; [by left|done].
      * intros (xj' & [= <-] & _ & ->). done.
    + destruct (compare_ f (feasible_ f) xj) eqn:Hcmp; simpl.
      * split.
        -- intros [= <-]. exists xj. split; [done|]. split; [by right|done].
        -- intros (xj' & [= <-] & _ & ->). done.
      * split; [done|]. intros (xj' & [= <-] & [?|?] & _); congruence.
  - split; [done|]. by intros (xj & ? & _).
Qed.

(** X3.  In exact mode, at a value where the compare function gives the
    same answer in both argument orders, [linearize] and [error] agree on
    feasibility: where the value is accepted [linearize] returns the factor
    with the zero vector and [error] is exactly [0.0]; where it is rejected
    [linearize] throws and [error] is the gain times the inner product of
    the unwhitened error with itself. *)
Theorem exact_linearize_error_agree (f : NonlinearEquality) (c : Config)
    (xj : T) :
  allow_error_ f = false →
  Config_at c (key_ f) = Some xj →
  compare_ f xj (feasible_ f) = compare_ f (feasible_ f) xj →
  if compare_ f (feasible_ f) xj then
    linearize f c
    = Ok {| gf_key := key_ f;
            gf_A := eye (dim (feasible_ f));
            gf_b := zero (dim (feasible_ f));
            gf_model := Constrained_All (Vector_size (zero (dim (feasible_ f)))) |}
    ∧ error f c = Ok 0%float
  else
    linearize f c = Err (invalid_argument (infeasible_msg f))
    ∧ error f c
      = Ok (error_gain_ f
            * inner_prod (unwhitenedError f c) (unwhitenedError f c))%float.
Proof.
  intros Hmode Hat Hsym. unfold linearize, error, evaluateError.
  rewrite Hat, Hmode. simpl. rewrite Hsym.
  by destruct (compare_ f (feasible_ f) xj).
Qed.

(** X4.  [equals] answers [false] for a factor of another class, and for
    two [NonlinearEquality] factors it looks at the base-class parts, the
    feasible values and the compare function of the left factor only: the
    tolerance, the modes and the gains of both factors and the compare
    function of the right factor do not change the answer. *)
Theorem equals_ignores_mode_gain_tol (f f' p p' : NonlinearEquality)
    (tol tol' : float) (o : OtherFactor) :
  noiseModel_ f = noiseModel_ f' → key_ f = key_ f' →
  feasible_ f = feasible_ f' → compare_ f = compare_ f' →
  noiseModel_ p = noiseModel_ p' → key_ p = key_ p' →
  feasible_ p = feasible_ p' →
  equals f (IsNonlinearEquality p) tol = equals f' (IsNonlinearEquality p') tol'
  ∧ equals f (IsOther o) tol = false.
Proof.
  intros Hn Hk Hf Hc Hn' Hk' Hf'. unfold equals.
  by rewrite Hn, Hk, Hf, Hc, Hn', Hk', Hf'.
Qed.

End NonlinearEquality.

(** *** A scalar instance

    Values are natural numbers compared by equality, configurations are
    finite maps, vectors and matrices are lists of doubles. *)

Definition nat_logmap (xj feasible : nat) : list float :=
  [if bool_decide (xj = feasible) then 0%float else 1%float].

Definition list_eye (n : nat) : list (list float) :=
  (λ i, (λ j, if bool_decide (i = j) then 1%float else 0%float) <$> seq 0 n)
    <$> seq 0 n.

Definition list_zero (n : nat) : list float := replicate n 0%float.

Definition list_inner_prod (a b : list float) : float :=
  foldl (λ acc p, (acc + p.1 * p.2)%float) 0%float (zip a b).

Definition nat_at (c : gmap nat nat) (j : nat) : option nat := c !! j.

Definition nat_key_string (j : nat) : string := pretty j.

Definition nat_unwhitenedError
    (f : @NonlinearEquality nat nat) (c : gmap nat nat) : list float :=
  match c !! key_ f with
  | Some xj => nat_logmap xj (feasible_ f)
  | None => []
  end.

Definition nat_evaluateError :=
  @evaluateError nat nat (list float) (list (list float))
    (λ _, 1) nat_logmap nat_key_string list_eye list_zero replicate.

Definition nat_linearize :=
  @linearize (gmap nat nat) nat nat (list float) (list (list float))
    nat_at (λ _, 1) nat_logmap nat_key_string list_eye list_zero
    replicate length [].

Definition nat_error :=
  @error (gmap nat nat) nat nat (list float) nat_at list_inner_prod
    nat_unwhitenedError.

(** The constraint [x7 = 3], exact and with gain [2.0]. *)
Definition exact_7_3 : @NonlinearEquality nat nat :=
  NonlinearEquality_exact (λ _, 1) 7 3 Nat.eqb.
Definition gain_7_3 : @NonlinearEquality nat nat :=
  NonlinearEquality_gain (λ _, 1) 7 3 2%float Nat.eqb.

(** C5, counterexample: the factor built with an error gain, linearized at
    [x7 = 4], which does not compare equal to the feasible [3], returns a
    Gaussian factor and [evaluateError] with the Jacobian requested returns
    a value: no error is reported. *)
Lemma gain_mode_infeasible_no_error :
  compare_ gain_7_3 (feasible_ gain_7_3) 4 = false
  ∧ nat_evaluateError gain_7_3 4 (Some []) = Ok ([1%float], Some [[1%float]])
  ∧ nat_linearize gain_7_3 {[ 7 := 4 ]}
    = Ok {| gf_key := 7; gf_A := [[1%float]]; gf_b := [1%float];
            gf_model := Constrained_All 1 |}.
Proof. by vm_compute. Qed.

(** The exact constraint [x7 = 3], evaluated and linearized at [x7 = 4],
    throws. *)
Lemma infeasible_point_reporting_witness :
  nat_evaluateError exact_7_3 4 (Some [])
  = Err (invalid_argument "Linearization point not feasible for 7!")
  ∧ nat_linearize exact_7_3 {[ 7 := 4 ]}
    = Err (invalid_argument "Linearization point not feasible for 7!").
Proof.
  exact (infeasible_point_reporting nat_at (λ _, 1) nat_logmap nat_key_string
           list_eye list_zero replicate length []
           exact_7_3 {[ 7 := 4 ]} 4 [] eq_refl eq_refl).
Defined.

(** The error of the exact constraint [x7 = 3] is [0.0] at [x7 = 3] and
    infinite at [x7 = 4]. *)
Lemma error_exact_mode_witness :
  nat_error exact_7_3 {[ 7 := 3 ]} = Ok 0%float
  ∧ nat_error exact_7_3 {[ 7 := 4 ]} = Ok infinity.
Proof.
  split.
  - exact (proj1 (error_exact_mode nat_at (λ _, 1) list_inner_prod
             nat_unwhitenedError exact_7_3 {[ 7 := 3 ]} 3 eq_refl eq_refl)).
  - exact (proj1 (error_exact_mode nat_at (λ _, 1) list_inner_prod
             nat_unwhitenedError exact_7_3 {[ 7 := 4 ]} 4 eq_refl eq_refl)).
Defined.

(** The base classes are equal when the noise models have the same
    dimension and the keys are the same. *)
Definition nat_Base_equals (m1 : SharedDiagonal) (k1 : nat)
    (m2 : SharedDiagonal) (k2 : nat) : bool :=
  match m1, m2 with
  | Constrained_All d1, Constrained_All d2 => Nat.eqb d1 d2 && Nat.eqb k1 k2
  end.

Definition nat_equals :=
  @equals nat nat unit nat_Base_equals.

(** The exact constraint [x7 = 3] is linearized at [x7 = 3] into the zero
    vector with the identity Jacobian, and its error there is [0.0]. *)
Lemma exact_linearize_error_agree_witness :
  nat_linearize exact_7_3 {[ 7 := 3 ]}
  = Ok {| gf_key := 7; gf_A := [[1%float]]; gf_b := [0%float];
          gf_model := Constrained_All 1 |}
  ∧ nat_error exact_7_3 {[ 7 := 3 ]} = Ok 0%float.
Proof.
  exact (exact_linearize_error_agree nat_at (λ _, 1) nat_logmap nat_key_string
           list_eye list_zero replicate list_inner_prod length []
           nat_unwhitenedError exact_7_3 {[ 7 := 3 ]} 3 eq_refl eq_refl eq_refl).
Defined.

(** The exact and the allow-error constraint [x7 = 3] are equal to each
    other, at any tolerance. *)
Lemma equals_ignores_mode_gain_tol_witness :
  nat_equals exact_7_3 (IsNonlinearEquality exact_7_3) 0%float
  = nat_equals exact_7_3 (IsNonlinearEquality gain_7_3) 1%float
  ∧ nat_equals exact_7_3 (IsOther tt) 0%float = false.
Proof.
  exact (equals_ignores_mode_gain_tol nat_Base_equals exact_7_3 exact_7_3
           exact_7_3 gain_7_3 0%float 1%float tt
           eq_refl eq_refl eq_refl eq_refl eq_refl eq_refl eq_refl).
Defined.

(** With a compare function that is not symmetric the two argument orders
    of [error] and [evaluateError] show: for [compare a b := a <= b] and the
    feasible value 3, at [x7 = 2] the error is [0.0] and [linearize]
    throws. *)
Example asymmetric_compare_disagree :
  let f := NonlinearEquality_exact (λ _, 1) 7 3 Nat.leb in
  nat_error f {[ 7 := 2 ]} = Ok 0%float
  ∧ nat_linearize f {[ 7 := 2 ]}
    = Err (invalid_argument "Linearization point not feasible for 7!").
Proof. by vm_compute. Qed.

End NonlinearEq.

(** ** hybrid/HybridDiscreteFactor.cpp, hybrid/HybridBayesTree.cpp *)

Module Hybrid.

Definition Key : Type := nat.

(** [DiscreteKey.h]: a key with its cardinality, and vectors of them. *)
Definition DiscreteKey : Type := Key * nat.
Definition DiscreteKeys : Type := list DiscreteKey.

(** [DiscreteKeys::operator&]: add a key. *)
Definition DiscreteKeys_and (ks : DiscreteKeys) (key : DiscreteKey) : DiscreteKeys :=
  ks ++ [key].

(** [DiscreteValues]: an assignment of a value to discrete keys. *)
Abbreviation DiscreteValues := (gmap Key nat).

(** Modelled from the spec: the decision-keyed mapping of a Hybrid
    conditional (gtsam's [DecisionTree], which is not among the sources):
    a leaf stores a value, a choice node on a discrete key has one branch per
    value of that key. *)
#[warnings="-register-all"]
Inductive DecisionTree (A : Type) : Type :=
  | Leaf (a : A)
  | Choice (label : Key) (branches : list (DecisionTree A)).
Arguments Leaf {A} a.
Arguments Choice {A} label branches.

(** Modelled from the spec: [operator()(assignment)] of the decision
    mapping selects the branch matching the assignment, one choice node per
    step; a key the assignment lacks, or a value without a branch, throws. *)
Fixpoint DecisionTree_call {A} (t : DecisionTree A) (x : DiscreteValues) : result A :=
  match t with
  | Leaf a => Ok a
  | Choice label branches =>
      i ← of_option out_of_range (x !! label);
      (fix branch (bs : list (DecisionTree A)) (i : nat) {struct bs} : result A :=
         match bs, i with
         | [], _ => Err out_of_range
         | b :: _, 0 => DecisionTree_call b x
         | _ :: bs, S i => branch bs i
         end) branches i
  end.

Section HybridBayesTree.

Context {GaussianConditional DiscreteConditional : Type}.
Context {DecisionTreeFactor GaussianFactor VectorValues : Type}.

(** [DecisionTreeFactor::discreteKeys] and [GaussianBayesNet::optimize],
    the solver of the net: a library call that returns or throws. *)
Variable discreteKeys : DecisionTreeFactor → DiscreteKeys.
Variable GaussianBayesNet_optimize : list GaussianConditional → result VectorValues.

(** *** HybridDiscreteFactor *)

Record HybridDiscreteFactor : Type := {
  hdf_keys : DiscreteKeys;
  hdf_inner : DecisionTreeFactor
}.

Record HybridGaussianFactor : Type := {
  hgf_inner : GaussianFactor
}.

(** The factors behind a [const HybridFactor &]. *)
Inductive HybridFactor : Type :=
  | AsDiscrete (f : HybridDiscreteFactor)
  | AsGaussian (f : HybridGaussianFactor).

(** [HybridDiscreteFactor(DecisionTreeFactor &&dtf)]. *)
Definition HybridDiscreteFactor_of (dtf : DecisionTreeFactor) : HybridDiscreteFactor :=
  {| hdf_keys := discreteKeys dtf; hdf_inner := dtf |}.

Definition HybridDiscreteFactor_equals (this : HybridDiscreteFactor)
    (lf : HybridFactor) (tol : float) : bool :=
  false.

(** *** HybridBayesTree *)

Abbreviation GaussianMixture := (DecisionTree GaussianConditional).

(** Modelled from the spec: a conditional is a closed variant over
    Gaussian, Discrete and Hybrid, a Hybrid one storing a Gaussian
    conditional per discrete assignment ([HybridConditional] is not among the
    sources). *)
Inductive HybridInner : Type :=
  | InnerGaussian (gc : GaussianConditional)
  | InnerDiscrete (dc : DiscreteConditional)
  | InnerMixture (gm : GaussianMixture).

Record HybridConditional : Type := {
  frontals : list Key;
  parents : list Key;
  inner : HybridInner
}.

(** Modelled from the spec: the kind discriminant, and the downcast. *)
Definition isHybrid (c : HybridConditional) : bool :=
  match inner c with
  | InnerMixture _ => true
  | _ => false
  end.

Definition asMixture (c : HybridConditional) : option GaussianMixture :=
  match inner c with
  | InnerMixture gm => Some gm
  | _ => None
  end.

Record HybridBayesTreeClique : Type := {
  conditional : HybridConditional
}.

(** The tree as [optimize] sees it: [nodes()], the entries of the
    key-to-clique index in the order the iteration yields them. *)
Record HybridBayesTree : Type := {
  nodes : list (Key * HybridBayesTreeClique)
}.

(** The body of [if (conditional->isHybrid())]: the Gaussian conditional
    of the assignment. *)
Definition mixture_branch (assignment : DiscreteValues)
    (c : HybridConditional) : result GaussianConditional :=
  gm ← of_option (invalid_argument "null GaussianMixture") (asMixture c);
  DecisionTree_call gm assignment.

(** The loop of [HybridBayesTree::optimize] over the remaining entries
    [ns], with [added_keys] and [gbn] as the loop has them so far. *)
Fixpoint optimize_loop (assignment : DiscreteValues)
    (ns : list (Key * HybridBayesTreeClique)) (added_keys : list Key)
    (gbn : list GaussianConditional) : result (list GaussianConditional) :=
  match ns with
  | [] => Ok gbn
  | node :: ns =>
      if bool_decide (node.1 ∈ added_keys) then
        optimize_loop assignment ns added_keys gbn
      else
        let clique := node.2 in
        let conditional := conditional clique in
        let frontals := frontals conditional in
        let added_keys := added_keys ++ frontals in
        if isHybrid conditional then
          gaussian_conditional ← mixture_branch assignment conditional;
          optimize_loop assignment ns added_keys (gbn ++ [gaussian_conditional])
        else
          optimize_loop assignment ns added_keys gbn
  end.

(** The Gaussian Bayes net [gbn] that [optimize] builds. *)
Definition optimize_gbn (t : HybridBayesTree) (assignment : DiscreteValues)
    : result (list GaussianConditional) :=
  optimize_loop assignment (nodes t) [] [].

Definition optimize (t : HybridBayesTree) (assignment : DiscreteValues)
    : result VectorValues :=
  gbn ← optimize_gbn t assignment;
  (* Return the optimized bayes net. *)
  GaussianBayesNet_optimize gbn.

(** *** The cliques the loop visits *)

(** The cliques for which the test on [added_keys] passes, in order. *)
Fixpoint visited (ns : list (Key * HybridBayesTreeClique))
    (added_keys : list Key) : list HybridBayesTreeClique :=
  match ns with
  | [] => []
  | node :: ns =>
      if bool_decide (node.1 ∈ added_keys) then visited ns added_keys
      else node.2 :: visited ns (added_keys ++ frontals (conditional node.2))
  end.

(** The conditionals whose branch is pushed to [gbn], in order. *)
Definition emitting (ns : list (Key * HybridBayesTreeClique))
    (added_keys : list Key) : list HybridConditional :=
  filter (λ c, isHybrid c = true) (conditional <$> visited ns added_keys).

Definition emitted (t : HybridBayesTree) : list HybridConditional :=
  emitting (nodes t) [].

(** The index of a Bayes tree (specification, section 3): every entry maps
    a key to a clique in which it is frontal, and no key is frontal in two
    cliques of the index. *)
Definition index_consistent (ns : list (Key * HybridBayesTreeClique)) : Prop :=
  (∀ k c, (k, c) ∈ ns → k ∈ frontals (conditional c))
  ∧ (∀ k1 c1 k2 c2 v, (k1, c1) ∈ ns → (k2, c2) ∈ ns →
       v ∈ frontals (conditional c1) → v ∈ frontals (conditional c2) → c1 = c2).

(** The entries of the index whose clique holds a Hybrid conditional. *)
Definition hybrid_entries (ns : list (Key * HybridBayesTreeClique))
    : list (Key * HybridBayesTreeClique) :=
  filter (λ node, isHybrid (conditional node.2) = true) ns.

(** The clique of the scenario: a Hybrid conditional on the continuous [y]
    given the binary discrete [m], with the Gaussian branch [g0] stored for
    [m = 0] and [g1] for [m = 1]. *)
Definition binary_mixture_clique (y m : Key) (g0 g1 : GaussianConditional)
    : HybridBayesTreeClique :=
  {| conditional :=
       {| frontals := [y];
          parents := [m];
          inner := InnerMixture (Choice m [Leaf g0; Leaf g1]) |} |}.

(** *** Properties *)

Lemma filter_none {A} (P : A → Prop) `{∀ x, Decision (P x)} (l : list A) :
  (∀ x, x ∈ l → ¬ P x) → filter P l = [].
Proof.
  induction l as [|x l IH]; intros Hl; [done|].
  rewrite filter_cons_False by (apply Hl; by left).
  apply IH. intros y ?. apply Hl. by right.
Qed.

(** The loop pushes the branches of the emitting conditionals, in order,
    and throws at the first branch lookup that throws. *)
Lemma optimize_loop_emitting assignment ns added_keys gbn :
  optimize_loop assignment ns added_keys gbn
  = (gs ← mapM (mixture_branch assignment) (emitting ns added_keys);
     Ok (gbn ++ gs)).
Proof.
  revert added_keys gbn. induction ns as [|[k c] ns IH]; intros added_keys gbn.
  - simpl. by rewrite app_nil_r.
  - unfold emitting. simpl. case_bool_decide; [apply IH|].
    simpl. rewrite filter_cons. destruct (isHybrid (conditional c)) eqn:Hhyb.
    + rewrite decide_True by done. simpl.
      destruct (mixture_branch assignment (conditional c)) as [g|e]; simpl; [|done].
      rewrite IH. unfold emitting.
      destruct (mapM _ _) as [gs|e]; simpl; [|done].
      by rewrite <-app_assoc.
    + rewrite decide_False by done. apply IH.
Qed.

Lemma optimize_gbn_emitted t assignment :
  optimize_gbn t assignment = mapM (mixture_branch assignment) (emitted t).
Proof.
  unfold optimize_gbn, emitted. rewrite optimize_loop_emitting.
  by destruct (mapM _ _).
Qed.

(** A visited clique is the clique of an entry whose key was not yet
    recorded. *)
Lemma visited_entry ns added_keys c :
  c ∈ visited ns added_keys → ∃ k, (k, c) ∈ ns ∧ k ∉ added_keys.
Proof.
  revert added_keys. induction ns as [|[k0 c0] ns IH]; intros added_keys; simpl.
  - by intros ?%elem_of_nil.
  - case_bool_decide as Hk.
    + intros (k & ? & ?)%IH. exists k. split; [by right|done].
    + intros [->|Hin]%elem_of_cons.
      * exists k0. split; [by left|done].
      * apply IH in Hin as (k & ? & Hnotin). exists k. split; [by right|].
        intros ?. apply Hnotin, elem_of_app. by left.
Qed.

Lemma index_consistent_tail n ns :
  index_consistent (n :: ns) → index_consistent ns.
Proof.
  intros [Hfront Hsingle]. split.
  - intros k c ?. apply Hfront. by right.
  - intros k1 c1 k2 c2 v ??. apply (Hsingle k1 c1 k2 c2 v); by right.
Qed.

(** Under a consistent index no key is frontal in two visited cliques. *)
Lemma visited_once ns added_keys v :
  index_consistent ns →
  length (filter (λ c, v ∈ frontals (conditional c)) (visited ns added_keys)) ≤ 1.
Proof.
  revert added_keys. induction ns as [|[k0 c0] ns IH]; intros added_keys Hwf; simpl.
  - lia.
  - pose proof (index_consistent_tail _ _ Hwf) as Hwf'.
    case_bool_decide as Hk; [by apply IH|].
    rewrite filter_cons. case_decide as Hv; [|by apply IH].
    simpl. cut (filter (λ c, v ∈ frontals (conditional c))
                  (visited ns (added_keys ++ frontals (conditional c0))) = []).
    { intros ->. simpl. lia. }
    apply filter_none. intros c Hc Hvc.
    apply visited_entry in Hc as (k & Hin & Hnotin).
    destruct Hwf as [Hfront Hsingle].
    assert (c = c0) as ->.
    { apply (Hsingle k c k0 c0 v); [by right|by left|done|done]. }
    apply Hnotin, elem_of_app. right. apply Hfront. by right.
Qed.

Lemma emitting_once ns added_keys v :
  index_consistent ns →
  length (filter (λ c, v ∈ frontals c) (emitting ns added_keys)) ≤ 1.
Proof.
  intros Hwf. etrans; [|apply (visited_once ns added_keys v Hwf)].
  unfold emitting. generalize (visited ns added_keys).
  intros cs. induction cs as [|c cs IH]; [done|].
  rewrite fmap_cons.
  rewrite (filter_cons (λ c, v ∈ frontals (conditional c))).
  rewrite (filter_cons (λ c, isHybrid c = true)).
  destruct (decide (isHybrid (conditional c) = true)).
  - rewrite filter_cons.
    destruct (decide (v ∈ frontals (conditional c))); cbn [length]; lia.
  - destruct (decide (v ∈ frontals (conditional c))); cbn [length]; lia.
Qed.

(** C3.  For a tree with a consistent index, whatever the order of its
    entries: the Gaussian Bayes net of [optimize] consists of the branches
    of the emitting conditionals, one push per element of [emitted], and no
    key is frontal in two of them; a clique visited under one of its keys
    is not visited again. *)
Theorem optimize_one_conditional_per_frontal (t : HybridBayesTree)
    (assignment : DiscreteValues) :
  index_consistent (nodes t) →
  optimize_gbn t assignment = mapM (mixture_branch assignment) (emitted t)
  ∧ (∀ v, length (filter (λ c, v ∈ frontals c) (emitted t)) ≤ 1)
  ∧ (∀ v, length (filter (λ c, v ∈ frontals (conditional c))
                    (visited (nodes t) [])) ≤ 1)
  ∧ (∀ gbn, optimize_gbn t assignment = Ok gbn →
       length gbn = length (emitted t)).
Proof.
  intros Hwf. split; [apply optimize_gbn_emitted|].
  split; [intros v; by apply emitting_once|].
  split; [intros v; by apply visited_once|].
  intros gbn. rewrite optimize_gbn_emitted. generalize (emitted t).
  intros cs. revert gbn. induction cs as [|c cs IH]; intros gbn; simpl.
  - by intros [= <-].
  - destruct (mixture_branch assignment c) as [g|e]; simpl; [|done].
    destruct (mapM _ cs) as [gs|e]; simpl; [|done].
    intros [= <-]. simpl. f_equal. by apply IH.
Qed.

(** Every emitting conditional is Hybrid and belongs to a clique of the
    index. *)
Lemma emitting_hybrid ns added_keys c :
  c ∈ emitting ns added_keys →
  isHybrid c = true ∧ ∃ k cl, (k, cl) ∈ ns ∧ conditional cl = c.
Proof.
  unfold emitting. intros [Hhyb Hin]%list_elem_of_filter. split; [done|].
  apply list_elem_of_fmap in Hin as (cl & -> & Hcl).
  apply visited_entry in Hcl as (k & ? & _). by exists k, cl.
Qed.

(** Cliques that are not Hybrid do not change what the others emit. *)
Lemma emitting_hybrid_entries ns added_keys added_keys' :
  index_consistent ns →
  (∀ k c, (k, c) ∈ ns → isHybrid (conditional c) = true →
     k ∈ added_keys ↔ k ∈ added_keys') →
  emitting ns added_keys = emitting (hybrid_entries ns) added_keys'.
Proof.
  revert added_keys added_keys'.
  induction ns as [|[k0 c0] ns IH]; intros added_keys added_keys' Hwf Hadded;
    [done|].
  pose proof (index_consistent_tail _ _ Hwf) as Hwf'.
  unfold hybrid_entries. rewrite filter_cons. simpl.
  destruct (decide (isHybrid (conditional c0) = true)) as [Hhyb|Hhyb].
  - unfold emitting. simpl.
    assert (k0 ∈ added_keys ↔ k0 ∈ added_keys') as Hk0
      by (apply (Hadded k0 c0); [by left|done]).
    case_bool_decide as Hk; case_bool_decide as Hk'; try tauto.
    + apply IH; [done|]. intros k c ??. apply (Hadded k c); [by right|done].
    + rewrite !fmap_cons, !filter_cons_True by done. f_equal.
      apply IH; [done|]. intros k c ??. rewrite !elem_of_app.
      rewrite (Hadded k c); [done|by right|done].
  - unfold emitting. simpl. case_bool_decide as Hk.
    + apply IH; [done|]. intros k c ??. apply (Hadded k c); [by right|done].
    + rewrite fmap_cons, filter_cons_False by done.
      apply IH; [done|]. intros k c Hin Hc. rewrite elem_of_app.
      rewrite (Hadded k c); [|by right|done].
      split; [|by left]. intros [?|Hfront]; [done|]. exfalso.
      destruct Hwf as [Hfront0 Hsingle]. apply Hhyb.
      rewrite <-(Hsingle k c k0 c0 k); [done|by right|by left| |done].
      apply Hfront0. by right.
Qed.

(** C9.  The Gaussian Bayes net of [optimize] consists of branches of
    Hybrid conditionals only: every emitting conditional is Hybrid and sits
    in a clique of the index; a tree none of whose cliques is Hybrid
    (Gaussian or Discrete ones only) yields the empty net; and, for a
    consistent index, dropping the entries of the cliques that are not
    Hybrid does not change the net. *)
Theorem optimize_only_hybrid (t : HybridBayesTree) (assignment : DiscreteValues) :
  optimize_gbn t assignment = mapM (mixture_branch assignment) (emitted t)
  ∧ Forall (λ c, isHybrid c = true
                 ∧ ∃ k cl, (k, cl) ∈ nodes t ∧ conditional cl = c) (emitted t)
  ∧ ((∀ k cl, (k, cl) ∈ nodes t → isHybrid (conditional cl) = false) →
     optimize_gbn t assignment = Ok [])
  ∧ (index_consistent (nodes t) →
     optimize_gbn t assignment
     = optimize_gbn {| nodes := hybrid_entries (nodes t) |} assignment).
Proof.
  split; [apply optimize_gbn_emitted|].
  split; [apply Forall_forall; intros c; apply emitting_hybrid|].
  split.
  - intros Hnone. rewrite optimize_gbn_emitted.
    replace (emitted t) with (@nil HybridConditional); [done|].
    symmetry. apply filter_none. intros c Hin Hhyb.
    apply list_elem_of_fmap in Hin as (cl & -> & Hcl).
    apply visited_entry in Hcl as (k & Hin & _).
    apply Hnone in Hin. congruence.
  - intros Hwf. rewrite !optimize_gbn_emitted. f_equal.
    unfold emitted. simpl. by apply emitting_hybrid_entries.
Qed.

(** C8.  [equals] of a hybrid discrete factor answers [false] for every
    factor and tolerance, the factor itself included. *)
Theorem HybridDiscreteFactor_equals_never (a : HybridDiscreteFactor)
    (lf : HybridFactor) (tol : float) :
  HybridDiscreteFactor_equals a lf tol = false
  ∧ HybridDiscreteFactor_equals a (AsDiscrete a) tol = false.
Proof. by split. Qed.

(** *** The hybrid scenario *)

Section scenario.

Variables (y m : Key) (g0 g1 : GaussianConditional).
Local Abbreviation c := (binary_mixture_clique y m g0 g1).

(** Once [y] is recorded nothing more is emitted. *)
Lemma emitting_after_mixture ns added_keys :
  index_consistent ns →
  (∀ k cl, (k, cl) ∈ ns → cl = c ∨ isHybrid (conditional cl) = false) →
  y ∈ added_keys →
  emitting ns added_keys = [].
Proof.
  intros [Hfront _] Hothers Hy. apply filter_none. intros cc Hin Hhyb.
  apply list_elem_of_fmap in Hin as (cl & -> & Hcl).
  apply visited_entry in Hcl as (k & Hin & Hk).
  destruct (Hothers k cl Hin) as [->|Hno]; [|congruence].
  apply Hfront in Hin. simpl in Hin. apply list_elem_of_singleton in Hin as ->.
  done.
Qed.

(** Until the mixture clique is visited nothing is emitted, and then its
    conditional is. *)
Lemma emitting_mixture ns added_keys :
  index_consistent ns →
  (∀ k cl, (k, cl) ∈ ns → cl = c ∨ isHybrid (conditional cl) = false) →
  (y, c) ∈ ns →
  y ∉ added_keys →
  emitting ns added_keys = [conditional c].
Proof.
  revert added_keys.
  induction ns as [|[k0 c0] ns IH]; intros added_keys Hwf Hothers Hin Hy.
  { by apply elem_of_nil in Hin. }
  pose proof (index_consistent_tail _ _ Hwf) as Hwf'.
  assert (∀ k cl, (k, cl) ∈ ns → cl = c ∨ isHybrid (conditional cl) = false)
    as Hothers' by (intros k cl ?; apply (Hothers k cl); by right).
  destruct (Hothers k0 c0) as [->|Hno]; [by left| |].
  - assert (k0 = y) as ->.
    { destruct Hwf as [Hfront _]. apply list_elem_of_singleton.
      apply (Hfront k0 c). by left. }
    unfold emitting. simpl. rewrite bool_decide_eq_false_2 by done.
    rewrite fmap_cons, filter_cons_True by done. f_equal.
    apply emitting_after_mixture; [done|done|].
    apply elem_of_app. right. by left.
  - apply elem_of_cons in Hin as [Heq|Hin].
    { injection Heq as _ Hc. rewrite <-Hc in Hno. discriminate Hno. }
    unfold emitting. simpl. case_bool_decide as Hk0.
    + by apply IH.
    + rewrite fmap_cons, filter_cons_False by congruence.
      apply IH; [done|done|done|]. intros [?|Hfront]%elem_of_app; [done|].
      destruct Hwf as [_ Hsingle].
      assert (c0 = c) as ->; [|done].
      apply (Hsingle k0 c0 y c y); [by left|by right|done|by left].
Qed.

(** C4.  In a tree with a consistent index whose only Hybrid clique is the
    one of the scenario, [optimize] under an assignment with [m = 0] builds
    the Gaussian Bayes net holding exactly the branch [g0]: it contains
    [g0], and it does not contain [g1] (when the two branches differ). *)
Theorem optimize_selects_branch_0 (t : HybridBayesTree)
    (assignment : DiscreteValues) :
  index_consistent (nodes t) →
  (∀ k cl, (k, cl) ∈ nodes t → cl = c ∨ isHybrid (conditional cl) = false) →
  (y, c) ∈ nodes t →
  assignment !! m = Some 0 →
  optimize_gbn t assignment = Ok [g0]
  ∧ ∀ gbn, optimize_gbn t assignment = Ok gbn →
      g0 ∈ gbn ∧ (g1 ≠ g0 → g1 ∉ gbn).
Proof.
  intros Hwf Hothers Hin Hm.
  assert (optimize_gbn t assignment = Ok [g0]) as Hgbn.
  { rewrite optimize_gbn_emitted. unfold emitted.
    rewrite emitting_mixture by (done || by intros ?%elem_of_nil).
    unfold mixture_branch. simpl. by rewrite Hm. }
  split; [done|]. intros gbn. rewrite Hgbn. intros [= <-]. split; [by left|].
  by intros Hne ->%list_elem_of_singleton.
Qed.

End scenario.

(** *** The traversal: every clique once, in any order *)

(** [added_keys] holds all the index keys of a clique or none of them. *)
Definition closed_keys (index : list (Key * HybridBayesTreeClique))
    (added_keys : list Key) : Prop :=
  ∀ k c k', (k, c) ∈ index → (k', c) ∈ index → k ∈ added_keys → k' ∈ added_keys.

Lemma closed_keys_visit index added_keys k0 c0 :
  index_consistent index → (k0, c0) ∈ index →
  closed_keys index added_keys →
  closed_keys index (added_keys ++ frontals (conditional c0)).
Proof.
  intros [Hfront Hsingle] Hin0 Hclosed k c k' Hin Hin'.
  rewrite !elem_of_app. intros [Hk|Hk].
  - left. by apply (Hclosed k c k').
  - right. assert (c = c0) as ->.
    { apply (Hsingle k c k0 c0 k); [done|done| |done]. by apply Hfront. }
    by apply Hfront.
Qed.

(** The clique of an entry whose key is not yet recorded is visited. *)
Lemma visited_complete index ns added_keys k c :
  index_consistent index → ns ⊆ index → closed_keys index added_keys →
  (k, c) ∈ ns → k ∉ added_keys → c ∈ visited ns added_keys.
Proof.
  intros Hwf. revert added_keys.
  induction ns as [|[k0 c0] ns IH]; intros added_keys Hsub Hclosed Hin Hk.
  { by apply elem_of_nil in Hin. }
  assert ((k0, c0) ∈ index) as Hin0 by (apply Hsub; by left).
  assert (ns ⊆ index) as Hsub' by (intros ??; apply Hsub; by right).
  simpl. case_bool_decide as Hk0.
  - apply elem_of_cons in Hin as [[= -> ->]|Hin]; [done|]. by apply IH.
  - apply elem_of_cons in Hin as [[= -> ->]|Hin]; [by left|].
    destruct (decide (k ∈ frontals (conditional c0))) as [Hfront|Hfront].
    + destruct Hwf as [Hfront0 Hsingle].
      assert (c = c0) as ->; [|by left].
      apply (Hsingle k c k0 c0 k); [by apply Hsub'|done| |done].
      apply Hfront0. by apply Hsub'.
    + right. apply IH; [done| |done|].
      * by apply (closed_keys_visit index added_keys k0 c0).
      * by intros [?|?]%elem_of_app.
Qed.

Lemma visited_NoDup ns added_keys :
  index_consistent ns → NoDup (visited ns added_keys).
Proof.
  revert added_keys. induction ns as [|[k0 c0] ns IH]; intros added_keys Hwf;
    simpl; [constructor|].
  pose proof (index_consistent_tail _ _ Hwf) as Hwf'.
  case_bool_decide as Hk0; [by apply IH|].
  apply NoDup_cons. split; [|by apply IH].
  intros (k & Hin & Hk)%visited_entry. apply Hk, elem_of_app. right.
  destruct Hwf as [Hfront _]. apply Hfront. by right.
Qed.

Lemma index_consistent_Permutation ns ns' :
  ns ≡ₚ ns' → index_consistent ns → index_consistent ns'.
Proof.
  intros Hperm [Hfront Hsingle]. split.
  - intros k c Hin. apply Hfront. by rewrite Hperm.
  - intros k1 c1 k2 c2 v Hin1 Hin2. apply (Hsingle k1 c1 k2 c2 v);
      by rewrite Hperm.
Qed.

Lemma visited_all ns c :
  index_consistent ns →
  c ∈ visited ns [] ↔ ∃ k, (k, c) ∈ ns.
Proof.
  intros Hwf. split.
  - intros (k & ? & _)%visited_entry. by exists k.
  - intros [k Hin]. apply (visited_complete ns ns [] k c); try done.
    + by intros k1 c1 k2 _ _ ?%elem_of_nil.
    + by intros ?%elem_of_nil.
Qed.

Lemma conditional_inj : Inj (=) (=) conditional.
Proof. intros [c1] [c2]. simpl. by intros ->. Qed.

(** X5.  For a consistent index, [optimize] visits every clique of the
    index exactly once, and the conditional of every Hybrid clique of the
    index is emitted exactly once. *)
Theorem optimize_visits_each_clique_once (t : HybridBayesTree) :
  index_consistent (nodes t) →
  NoDup (visited (nodes t) [])
  ∧ (∀ c, c ∈ visited (nodes t) [] ↔ ∃ k, (k, c) ∈ nodes t)
  ∧ NoDup (emitted t)
  ∧ (∀ k c, (k, c) ∈ nodes t → isHybrid (conditional c) = true →
       conditional c ∈ emitted t).
Proof.
  intros Hwf. split; [by apply visited_NoDup|].
  split; [intros c; by apply visited_all|]. split.
  - unfold emitted, emitting. apply NoDup_filter.
    apply (NoDup_fmap_2 (Inj0:=conditional_inj) conditional), visited_NoDup, Hwf.
  - intros k c Hin Hhyb. unfold emitted, emitting.
    apply list_elem_of_filter. split; [done|].
    apply list_elem_of_fmap. exists c. split; [done|].
    apply visited_all; [done|]. by exists k.
Qed.

Lemma mapM_result_Permutation {A B} (f : A → result B) (l l' : list A) (bs : list B) :
  l ≡ₚ l' → mapM f l = Ok bs → ∃ bs', mapM f l' = Ok bs' ∧ bs ≡ₚ bs'.
Proof.
  intros Hperm. revert bs.
  induction Hperm as [|x l l' _ IH|x y l|l1 l2 l3 _ IH1 _ IH2]; intros bs; simpl.
  - intros [= <-]. by exists [].
  - destruct (f x) as [b|e]; simpl; [|done].
    destruct (mapM f l) as [bs1|e]; simpl; [|done]. intros [= <-].
    destruct (IH bs1 eq_refl) as (bs1' & -> & Hbs). simpl.
    exists (b :: bs1'). split; [done|]. by constructor.
  - destruct (f y) as [by_|e]; simpl; [|done].
    destruct (f x) as [bx|e]; simpl; [|done].
    destruct (mapM f l) as [bs1|e]; simpl; [|done]. intros [= <-].
    exists (bx :: by_ :: bs1). split; [done|]. constructor.
  - intros Hbs. destruct (IH1 bs Hbs) as (bs2 & Hbs2 & Hperm12).
    destruct (IH2 bs2 Hbs2) as (bs3 & Hbs3 & Hperm23).
    exists bs3. split; [done|]. by etrans.
Qed.

(** X6.  The order of the entries of a consistent index does not matter
    beyond the order of the result: for two orders of the same entries the
    emitted conditionals are the same up to their order, [optimize] returns
    for both or throws for both, and the Gaussian Bayes nets it builds hold
    the same conditionals up to their order. *)
Theorem optimize_any_traversal_order (t t' : HybridBayesTree)
    (assignment : DiscreteValues) :
  nodes t ≡ₚ nodes t' →
  index_consistent (nodes t) →
  emitted t ≡ₚ emitted t'
  ∧ (∀ gbn, optimize_gbn t assignment = Ok gbn →
       ∃ gbn', optimize_gbn t' assignment = Ok gbn' ∧ gbn ≡ₚ gbn')
  ∧ ((∃ e, optimize_gbn t assignment = Err e)
     ↔ (∃ e, optimize_gbn t' assignment = Err e)).
Proof.
  intros Hperm Hwf.
  pose proof (index_consistent_Permutation _ _ Hperm Hwf) as Hwf'.
  assert (emitted t ≡ₚ emitted t') as Hemitted.
  { unfold emitted, emitting. apply filter_Permutation, fmap_Permutation.
    apply NoDup_Permutation; [by apply visited_NoDup..|].
    intros c. rewrite !visited_all by done.
    split; intros [k Hin]; exists k; by rewrite ?Hperm in *. }
  split; [done|]. rewrite !optimize_gbn_emitted. split.
  - intros gbn. by apply mapM_result_Permutation.
  - split; intros [e He].
    + destruct (mapM (mixture_branch assignment) (emitted t')) as [gbn'|e']
        eqn:Hgbn'; [|by exists e'].
      symmetry in Hemitted.
      destruct (mapM_result_Permutation _ _ _ _ Hemitted Hgbn')
        as (gbn & Hgbn & _). congruence.
    + destruct (mapM (mixture_branch assignment) (emitted t)) as [gbn|e']
        eqn:Hgbn; [|by exists e'].
      destruct (mapM_result_Permutation _ _ _ _ Hemitted Hgbn)
        as (gbn' & Hgbn' & _). congruence.
Qed.

(** [mapM] stops at the first element for which [f] throws. *)
Lemma mapM_result_Err {A B} (f : A → result B) (l : list A) (e : exn) :
  mapM f l = Err e ↔
    ∃ l1 x l2, l = l1 ++ x :: l2
      ∧ (∀ y, y ∈ l1 → ∃ b, f y = Ok b) ∧ f x = Err e.
Proof.
  split.
  - induction l as [|x l IH]; simpl; [done|].
    destruct (f x) as [b|e'] eqn:Hx; simpl.
    + destruct (mapM f l) as [bs|e']; simpl; [done|]. intros [= <-].
      destruct (IH eq_refl) as (l1 & x' & l2 & -> & Hl1 & Hx').
      exists (x :: l1), x', l2. split; [done|]. split; [|done].
      intros y [->|?]%elem_of_cons; [by exists b|by apply Hl1].
    + intros [= <-]. exists [], x, l. split; [done|]. split; [|done].
      by intros y ?%elem_of_nil.
  - intros (l1 & x & l2 & -> & Hl1 & Hx).
    induction l1 as [|y l1 IH]; simpl; [by rewrite Hx|].
    destruct (Hl1 y) as [b ->]; [by left|]. simpl.
    rewrite IH; [done|]. intros y' ?. apply Hl1. by right.
Qed.

(** X7.  The loop of [optimize] throws exactly when the branch lookup
    throws for one of the Hybrid conditionals it emits, and what it throws
    is the exception of the first such lookup; that conditional is the one
    of a Hybrid clique of the index, so cliques that are not Hybrid never
    make the loop throw.  [optimize] throws what the loop throws, or, when
    the loop returns a net, what the solver throws on that net; and it
    returns only what the solver returns on the net the loop built. *)
Theorem optimize_throws_iff (t : HybridBayesTree) (assignment : DiscreteValues) :
  (∀ e, optimize_gbn t assignment = Err e ↔
     ∃ cs c cs', emitted t = cs ++ c :: cs'
       ∧ (∀ c', c' ∈ cs → ∃ g, mixture_branch assignment c' = Ok g)
       ∧ mixture_branch assignment c = Err e)
  ∧ (∀ e, optimize_gbn t assignment = Err e →
       ∃ c k cl, mixture_branch assignment c = Err e
         ∧ isHybrid c = true ∧ (k, cl) ∈ nodes t ∧ conditional cl = c)
  ∧ (∀ e, optimize t assignment = Err e ↔
       optimize_gbn t assignment = Err e
       ∨ ∃ gbn, optimize_gbn t assignment = Ok gbn
           ∧ GaussianBayesNet_optimize gbn = Err e)
  ∧ (∀ v, optimize t assignment = Ok v ↔
       ∃ gbn, optimize_gbn t assignment = Ok gbn
         ∧ GaussianBayesNet_optimize gbn = Ok v).
Proof.
  assert (∀ e, optimize_gbn t assignment = Err e ↔
            ∃ cs c cs', emitted t = cs ++ c :: cs'
              ∧ (∀ c', c' ∈ cs → ∃ g, mixture_branch assignment c' = Ok g)
              ∧ mixture_branch assignment c = Err e) as Hloop.
  { intros e. rewrite optimize_gbn_emitted. apply mapM_result_Err. }
  split; [done|]. split; [|split].
  - intros e (cs & c & cs' & Hemitted & _ & Hbranch)%Hloop.
    assert (c ∈ emitted t) as Hc.
    { rewrite Hemitted. apply elem_of_app. right. by left. }
    apply emitting_hybrid in Hc as (Hhyb & k & cl & Hin & Hcl).
    by exists c, k, cl.
  - intros e. unfold optimize.
    destruct (optimize_gbn t assignment) as [gbn|e']; simpl.
    + split; [intros ?; right; by exists gbn|].
      by intros [[=]|(gbn' & [= <-] & ?)].
    + split; [intros [= <-]; by left|]. by intros [[= <-]|(gbn' & [=] & _)].
  - intros v. unfold optimize.
    destruct (optimize_gbn t assignment) as [gbn|e']; simpl.
    + split; [intros ?; by exists gbn|]. by intros (gbn' & [= <-] & ?).
    + split; [done|]. by intros (gbn' & [=] & _).
Qed.

End HybridBayesTree.

(** *** The scenario, concretely

    Keys: [m = 0] (discrete, binary), [y = 1] and [x = 2] (continuous).
    Conditionals are named by strings. *)

Definition clique_m : @HybridBayesTreeClique string string :=
  {| conditional :=
       {| frontals := [0]; parents := []; inner := InnerDiscrete "P(m)" |} |}.

Definition clique_y : @HybridBayesTreeClique string string :=
  binary_mixture_clique 1 0 "N(y|m=0)" "N(y|m=1)".

Definition clique_x : @HybridBayesTreeClique string string :=
  {| conditional :=
       {| frontals := [2]; parents := [1]; inner := InnerGaussian "N(x|y)" |} |}.

Definition scenario_tree : @HybridBayesTree string string :=
  {| nodes := [(2, clique_x); (1, clique_y); (0, clique_m)] |}.

Definition continuous_tree : @HybridBayesTree string string :=
  {| nodes := [(2, clique_x); (0, clique_m)] |}.

Lemma scenario_consistent : index_consistent (nodes scenario_tree).
Proof.
  split.
  - intros k c Hin. simpl in Hin.
    repeat (apply elem_of_cons in Hin as [[= -> ->]|Hin]; [simpl; by left|]).
    by apply elem_of_nil in Hin.
  - intros k1 c1 k2 c2 v Hin1 Hin2. simpl in Hin1, Hin2.
    repeat (apply elem_of_cons in Hin1 as [[= -> ->]|Hin1];
            [|try by apply elem_of_nil in Hin1]);
      repeat (apply elem_of_cons in Hin2 as [[= -> ->]|Hin2];
              [|try by apply elem_of_nil in Hin2]);
      simpl; intros ->%list_elem_of_singleton ?%list_elem_of_singleton;
      done.
Qed.

Lemma scenario_only_hybrid k cl :
  (k, cl) ∈ nodes scenario_tree →
  cl = clique_y ∨ isHybrid (conditional cl) = false.
Proof.
  intros Hin. simpl in Hin.
  repeat (apply elem_of_cons in Hin as [[= -> ->]|Hin]; [by (left + right)|]).
  by apply elem_of_nil in Hin.
Qed.

Lemma continuous_no_hybrid k cl :
  (k, cl) ∈ nodes continuous_tree → isHybrid (conditional cl) = false.
Proof.
  intros Hin. simpl in Hin.
  repeat (apply elem_of_cons in Hin as [[= -> ->]|Hin]; [done|]).
  by apply elem_of_nil in Hin.
Qed.

(** A Hybrid clique with the two frontal variables [y = 1] and [z = 3]
    given [m]: the index maps both keys to it. *)
Definition clique_yz : @HybridBayesTreeClique string string :=
  {| conditional :=
       {| frontals := [1; 3];
          parents := [0];
          inner := InnerMixture
                     (Choice 0 [Leaf "N(y,z|m=0)"; Leaf "N(y,z|m=1)"]) |} |}.

Definition two_key_tree : @HybridBayesTree string string :=
  {| nodes := [(1, clique_yz); (2, clique_x); (3, clique_yz); (0, clique_m)] |}.

Lemma two_key_consistent : index_consistent (nodes two_key_tree).
Proof.
  split.
  - intros k c Hin. simpl in Hin.
    repeat (apply elem_of_cons in Hin as [[= -> ->]|Hin];
            [simpl; rewrite !elem_of_cons; auto|]).
    by apply elem_of_nil in Hin.
  - intros k1 c1 k2 c2 v Hin1 Hin2. simpl in Hin1, Hin2.
    repeat (apply elem_of_cons in Hin1 as [[= -> ->]|Hin1];
            [|try by apply elem_of_nil in Hin1]);
      repeat (apply elem_of_cons in Hin2 as [[= -> ->]|Hin2];
              [|try by apply elem_of_nil in Hin2]);
      simpl; rewrite !elem_of_cons, !elem_of_nil;
      intros Hv1 Hv2; destruct_or!; by simplify_eq.
Qed.

(** The tree in which the clique on [y, z] is indexed under both of its
    keys has a consistent index.  The loop meets the clique a second time
    under the key [z = 3] and passes it over: three cliques are visited for
    four entries, and the conditional on [y, z] is emitted once. *)
Lemma optimize_one_conditional_per_frontal_witness :
  optimize_gbn two_key_tree {[ 0 := 0 ]}
  = mapM (mixture_branch {[ 0 := 0 ]}) (emitted two_key_tree)
  ∧ (∀ v, length (filter (λ c, v ∈ frontals c) (emitted two_key_tree)) ≤ 1)
  ∧ (∀ v, length (filter (λ c, v ∈ frontals (conditional c))
                    (visited (nodes two_key_tree) [])) ≤ 1)
  ∧ (∀ gbn, optimize_gbn two_key_tree {[ 0 := 0 ]} = Ok gbn →
       length gbn = length (emitted two_key_tree))
  ∧ visited (nodes two_key_tree) [] = [clique_yz; clique_x; clique_m]
  ∧ emitted two_key_tree = [conditional clique_yz]
  ∧ optimize_gbn two_key_tree {[ 0 := 0 ]} = Ok ["N(y,z|m=0)"].
Proof.
  pose proof (optimize_one_conditional_per_frontal two_key_tree {[ 0 := 0 ]}
                two_key_consistent) as (Hgbn & Hemitted & Hvisited & Hlength).
  split; [exact Hgbn|]. split; [exact Hemitted|]. split; [exact Hvisited|].
  split; [exact Hlength|]. split; [|split]; by vm_compute.
Defined.

(** On the scenario tree, [m = 0] selects the branch [N(y|m=0)] only. *)
Lemma optimize_selects_branch_0_witness :
  optimize_gbn scenario_tree {[ 0 := 0 ]} = Ok ["N(y|m=0)"]
  ∧ ∀ gbn, optimize_gbn scenario_tree {[ 0 := 0 ]} = Ok gbn →
      "N(y|m=0)" ∈ gbn ∧ ("N(y|m=1)" ≠ "N(y|m=0)" → "N(y|m=1)" ∉ gbn).
Proof.
  exact (optimize_selects_branch_0 1 0 "N(y|m=0)" "N(y|m=1)" scenario_tree
           {[ 0 := 0 ]} scenario_consistent scenario_only_hybrid
           ltac:(right; left) eq_refl).
Defined.

(** A tree with a Gaussian and a Discrete clique yields the empty net. *)
Lemma optimize_only_hybrid_witness :
  optimize_gbn continuous_tree {[ 0 := 0 ]} = Ok [].
Proof.
  exact (proj1 (proj2 (proj2 (optimize_only_hybrid continuous_tree {[ 0 := 0 ]})))
           continuous_no_hybrid).
Defined.

(** With [m = 1] the other branch is selected, and an assignment that does
    not decide [m] makes the branch lookup throw. *)
Example optimize_scenario_branch_1 :
  optimize_gbn scenario_tree {[ 0 := 1 ]} = Ok ["N(y|m=1)"]
  ∧ optimize_gbn scenario_tree ∅ = Err out_of_range.
Proof. by vm_compute. Qed.

(** The order of the entries does not matter. *)
Example optimize_scenario_reordered :
  optimize_gbn {| nodes := [(0, clique_m); (1, clique_y); (2, clique_x)] |}
    {[ 0 := 0 ]} = Ok ["N(y|m=0)"].
Proof. by vm_compute. Qed.

(** The consistency of the index is what the seen-set relies on: entries
    under keys that are not frontal in their clique, which the index of a
    Bayes tree does not have, let a clique be visited twice. *)
Example foreign_keys_visit_twice :
  optimize_gbn {| nodes := [(5, clique_y); (6, clique_y)] |} {[ 0 := 0 ]}
  = Ok ["N(y|m=0)"; "N(y|m=0)"].
Proof. by vm_compute. Qed.

(** The scenario tree with its entries in the opposite order. *)
Definition scenario_tree_reversed : @HybridBayesTree string string :=
  {| nodes := reverse (nodes scenario_tree) |}.

(** On the tree with the clique on [y, z] indexed under both of its keys,
    the three cliques are visited once each and the mixture on [y, z] is
    emitted, for the entry under [z = 3] too. *)
Lemma optimize_visits_each_clique_once_witness :
  NoDup (visited (nodes two_key_tree) [])
  ∧ NoDup (emitted two_key_tree)
  ∧ conditional clique_yz ∈ emitted two_key_tree.
Proof.
  destruct (optimize_visits_each_clique_once two_key_tree two_key_consistent)
    as (Hvisited & _ & Hemitted & Hhybrid).
  split; [done|]. split; [done|].
  apply (Hhybrid 3 clique_yz); [|done]. do 2 right. by left.
Defined.

(** The scenario tree and its reversal build nets with the same
    conditionals. *)
Lemma optimize_any_traversal_order_witness :
  emitted scenario_tree ≡ₚ emitted scenario_tree_reversed
  ∧ ∃ gbn', optimize_gbn scenario_tree_reversed {[ 0 := 0 ]} = Ok gbn'
      ∧ ["N(y|m=0)"] ≡ₚ gbn'.
Proof.
  destruct (optimize_any_traversal_order scenario_tree scenario_tree_reversed
              {[ 0 := 0 ]}) as (Hemitted & Hgbn & _).
  - symmetry. apply reverse_Permutation.
  - exact scenario_consistent.
  - split; [done|]. by apply Hgbn.
Defined.

(** With an assignment that does not decide [m], the lookup of the mixture
    on [y] throws, and so does [optimize], whatever the solver is; with
    [m = 0] the loop returns the net, and [optimize] throws when the solver
    does. *)
Lemma optimize_throws_iff_witness :
  optimize (λ _ : list string, Ok tt) scenario_tree ∅ = Err out_of_range
  ∧ optimize (λ _ : list string, Err NumericDegeneracy : result unit)
      scenario_tree {[ 0 := 0 ]}
    = Err NumericDegeneracy.
Proof.
  split.
  - apply (optimize_throws_iff (λ _ : list string, Ok tt) scenario_tree ∅).
    left. by vm_compute.
  - apply (optimize_throws_iff
             (λ _ : list string, Err NumericDegeneracy : result unit)
             scenario_tree {[ 0 := 0 ]}).
    right. exists ["N(y|m=0)"]. split; [by vm_compute|done].
Defined.

(** *** discrete/DiscreteKey.h *)

(** [DiscreteKeys(const DiscreteKey& key)]: the vector of one key. *)
Definition DiscreteKeys_of (key : DiscreteKey) : DiscreteKeys := [key].

(** X10.  Keys assembled with [&] are kept in the order in which they were
    added, after the keys the vector held: none is dropped or moved, also
    not one that the vector holds already, so that every application makes
    the vector one longer. *)
Theorem DiscreteKeys_and_chain (ks : DiscreteKeys) (l : list DiscreteKey) :
  foldl DiscreteKeys_and ks l = ks ++ l
  ∧ length (foldl DiscreteKeys_and ks l) = length ks + length l
  ∧ ∀ key, foldl DiscreteKeys_and (DiscreteKeys_of key) (key :: l)
           = key :: key :: l.
Proof.
  assert (∀ l ks, foldl DiscreteKeys_and ks l = ks ++ l) as Hchain.
  { clear. intros l. induction l as [|key l IH]; intros ks; simpl.
    - by rewrite app_nil_r.
    - unfold DiscreteKeys_and at 2. by rewrite IH, <-app_assoc. }
  split; [done|]. split.
  - by rewrite Hchain, length_app.
  - intros key. by rewrite Hchain.
Qed.

(** [X & Y & Z] of the tests. *)
Example DiscreteKeys_and_XYZ :
  DiscreteKeys_and (DiscreteKeys_and (DiscreteKeys_of (0, 2)) (1, 3)) (2, 2)
  = [(0, 2); (1, 3); (2, 2)].
Proof. done. Qed.

End Hybrid.

(** ** inference/ISAM-inl.h *)

Module ISAM.

(** A variable key, and the address a [sharedClique] points to. *)
Definition Symbol : Type := nat.
Definition CliqueId : Type := nat.

(** [IndexTable<Symbol> index(ordering)]: the position of a key in the
    ordering. *)
Definition IndexTable : Type := list Symbol.

(** *** Mutation and exceptions

    A member function mutates the tree in place and may throw: the state
    reached when the exception is thrown is kept. *)
Definition M (St A : Type) : Type := St → St * result A.

#[global] Instance M_ret {St} : MRet (M St) := λ A a s, (s, Ok a).
#[global] Instance M_bind {St} : MBind (M St) := λ A B k m s,
  match m s with
  | (s', Ok a) => k a s'
  | (s', Err e) => (s', Err e)
  end.

Definition throw {St A} (e : exn) : M St A := λ s, (s, Err e).
Definition lift {St A} (r : result A) : M St A := λ s, (s, r).
Definition gets {St A} (f : St → A) : M St A := λ s, (s, Ok (f s)).

(** [BOOST_FOREACH(x, l) body]. *)
Fixpoint for_each {St A} (l : list A) (body : A → M St unit) : M St unit :=
  match l with
  | [] => mret tt
  | x :: l => body x;; for_each l body
  end.

(** The loop from [l.rbegin()] to [l.rend()] over a reverse iterator: a reverse
    iterator with base position [base] designates the element before that
    position; [rend()] has base position 0. *)
Fixpoint for_reverse_from {St A} (l : list A) (base : nat)
    (body : A → M St unit) : M St unit :=
  match base with
  | 0 => mret tt
  | S base =>
      match l !! base with
      | Some x => body x;; for_reverse_from l base body
      | None => mret tt
      end
  end.

Definition for_each_reverse {St A} (l : list A) (body : A → M St unit) : M St unit :=
  for_reverse_from l (length l) body.

(** The arguments a loop hands to its body, in order: the loop run on the
    state that records them. *)
Definition calls {A} (loop : (A → M (list A) unit) → M (list A) unit) : list A :=
  (loop (λ x s, (s ++ [x], Ok tt)) []).1.

Section ISAM.

(** Template parameters. *)
Context {Conditional Factor : Type}.

(** *** The tree *)

(** A clique: the fields [separator_], [parent_] and [children_] that
    [update_internal] reads and assigns, and the conditional the clique
    owns. *)
Record Clique : Type := {
  conditional_ : Conditional;
  separator_ : list Symbol;
  parent_ : option CliqueId;
  children_ : list CliqueId
}.

(** Modelled from the spec: a Bayes tree is a forest of cliques plus the
    index from a key to the clique where it is frontal ([BayesTree-inl.h]
    is not among the sources).  Cliques live in an arena, addressed by
    what a [sharedClique] points to; a detached orphan stays in the arena. *)
Record BayesTree : Type := {
  cliques_ : gmap CliqueId Clique;
  nodes_ : gmap Symbol CliqueId
}.

Abbreviation Cliques := (list CliqueId).
Abbreviation BayesNet := (list Conditional).
Abbreviation FactorGraph := (list Factor).

(** Dereferencing and assigning through a [sharedClique].  A pointer to a
    clique that the arena does not hold breaks the tree: a structural
    error. *)
Definition deref (c : CliqueId) : M BayesTree Clique := λ t,
  (t, of_option StructuralError (cliques_ t !! c)).

Definition modify_clique (c : CliqueId) (f : Clique → Clique) : M BayesTree unit := λ t,
  match cliques_ t !! c with
  | Some cl => ({| cliques_ := <[c := f cl]> (cliques_ t); nodes_ := nodes_ t |}, Ok tt)
  | None => (t, Err StructuralError)
  end.

Definition add_child (child : CliqueId) (cl : Clique) : Clique :=
  {| conditional_ := conditional_ cl;
     separator_ := separator_ cl;
     parent_ := parent_ cl;
     children_ := children_ cl ++ [child] |}.

Definition set_parent (parent : option CliqueId) (cl : Clique) : Clique :=
  {| conditional_ := conditional_ cl;
     separator_ := separator_ cl;
     parent_ := parent;
     children_ := children_ cl |}.

Definition remove_child (child : CliqueId) (cl : Clique) : Clique :=
  {| conditional_ := conditional_ cl;
     separator_ := separator_ cl;
     parent_ := parent_ cl;
     children_ := filter (λ c, c ≠ child) (children_ cl) |}.

(** Modelled from the spec: [find(key)] is the index lookup. *)
Definition find (t : BayesTree) (key : Symbol) : option CliqueId :=
  nodes_ t !! key.

(** Modelled from the spec: [operator[]] is the index lookup of a key that
    has to be there. *)
Definition at_ (key : Symbol) : M BayesTree CliqueId := λ t,
  (t, of_option UnknownKey (find t key)).

(** A clique followed by its ancestors, along the parent back-references.
    The walk stops after as many steps as the arena has cliques. *)
Fixpoint chain_from (t : BayesTree) (fuel : nat) (c : CliqueId) : list CliqueId :=
  c :: match fuel with
       | 0 => []
       | S fuel =>
           match cliques_ t !! c ≫= parent_ with
           | Some p => chain_from t fuel p
           | None => []
           end
       end.

Definition chain (t : BayesTree) (c : CliqueId) : list CliqueId :=
  chain_from t (size (cliques_ t)) c.

(** A clique followed by its descendants, along the child links. *)
Fixpoint subtree_from (t : BayesTree) (fuel : nat) (c : CliqueId) : list CliqueId :=
  c :: match fuel with
       | 0 => []
       | S fuel =>
           match cliques_ t !! c with
           | Some cl => children_ cl ≫= subtree_from t fuel
           | None => []
           end
       end.

Definition subtree (t : BayesTree) (c : CliqueId) : list CliqueId :=
  subtree_from t (size (cliques_ t)) c.

(** *** The parent search *)

(** Each of [owners] is the owning clique of [v] or one of its ancestors. *)
Definition nested_above (t : BayesTree) (owners : list CliqueId) (v : Symbol) : bool :=
  match find t v with
  | Some p => forallb (λ x, bool_decide (x ∈ chain t p)) owners
  | None => false
  end.

(** Modelled from the spec (4.2, the search rule of [insert], which 4.3
    prescribes for orphans too): for each separator variable find its
    owning clique; the owning cliques must be identical or nested, that is
    lie on one path to a root, and the parent is the clique of that path
    below which the running intersection (section 3, invariant 2) holds
    for the new child: every separator variable is frontal in the parent
    or in an ancestor of the parent.  The result is a separator variable
    that the parent owns; [None] when a separator variable has no owning
    clique or the owning cliques do not lie on the path from one of them
    to its root. *)
Definition unique_ancestor (t : BayesTree) (separator : list Symbol) : option Symbol :=
  owners ← mapM (find t) separator;
  snd <$> list_find (λ v, nested_above t owners v = true) separator.

(** Modelled from the spec: [findParentClique] fails with a structural
    error when there is no such clique ([BayesTree-inl.h] is not among the
    sources).  [index] is passed as the callers pass it; the search rule of
    the specification goes through the tree. *)
Definition findParentClique (separator : list Symbol) (index : IndexTable)
    : M BayesTree Symbol := λ t,
  (t, of_option StructuralError (unique_ancestor t separator)).

(** *** update *)

(** What the factors expose, and [FactorGraph<Factor>(bn)], which turns
    each conditional into a factor. *)
Variable factor_keys : Factor → list Symbol.
Variable toFactor : Conditional → Factor.
(** [FactorGraph::getOrdering], and the compile-time switch. *)
Variable getOrdering : list Factor → list Symbol.
Variable SORT_KEYS : bool.
(** The operations of [BayesTree] and the elimination that [update_internal]
    calls.  [removeTop] appends to its last two arguments, which are passed
    by reference; their values after the call are returned. *)
Variable removeTop : list Symbol → BayesNet → Cliques → M BayesTree (BayesNet * Cliques).
Variable eliminate : FactorGraph → list Symbol → result BayesNet.
Variable insert : Conditional → IndexTable → M BayesTree unit.

(** Modelled from the spec (section 6): the union of the variable keys the
    factors touch. *)
Definition keys (factors : FactorGraph) : list Symbol :=
  remove_dups (factors ≫= factor_keys).

(** The body of the loop over the orphans. *)
Definition reattach (index : IndexTable) (orphan : CliqueId) : M BayesTree unit :=
  clique ← deref orphan;
  parentRepresentative ← findParentClique (separator_ clique) index;
  parent ← at_ parentRepresentative;
  modify_clique parent (add_child orphan);;
  modify_clique orphan (set_parent (Some parent)).

(** [update_internal]; [orphans] is passed by reference, its value after
    the call is returned. *)
Definition update_internal (newFactors : FactorGraph) (orphans : Cliques)
    : M BayesTree Cliques :=
  (* Remove the contaminated part of the Bayes tree *)
  '(bn, orphans) ← removeTop (keys newFactors) [] orphans;
  let factors := toFactor <$> bn in
  (* add the factors themselves *)
  let factors := factors ++ newFactors in
  (* create an ordering for the new and contaminated factors *)
  let ordering :=
    if SORT_KEYS then merge_sort (≤) (keys factors) else getOrdering factors in
  (* Create Index from ordering *)
  let index : IndexTable := ordering in
  (* eliminate into a Bayes net *)
  bayesNet ← lift (eliminate factors ordering);
  (* insert conditionals back in, straight into the topless bayesTree *)
  for_each_reverse bayesNet (λ conditional, insert conditional index);;
  (* add orphans to the bottom of the new tree *)
  for_each orphans (reattach index);;
  mret orphans.

Definition update (newFactors : FactorGraph) : M BayesTree unit :=
  update_internal newFactors [];;
  mret tt.

(** The steps of [update_internal] before the loop over the orphans: the
    orphans and the index it has then. *)
Definition rebuild (newFactors : FactorGraph) (orphans : Cliques)
    : M BayesTree (Cliques * IndexTable) :=
  '(bn, orphans) ← removeTop (keys newFactors) [] orphans;
  let factors := (toFactor <$> bn) ++ newFactors in
  let ordering :=
    if SORT_KEYS then merge_sort (≤) (keys factors) else getOrdering factors in
  bayesNet ← lift (eliminate factors ordering);
  for_each_reverse bayesNet (λ conditional, insert conditional ordering);;
  mret (orphans, ordering).

(** The steps of the specification (4.3) for [update]: as [update_internal],
    with step 6 written as a loop from the first to the last conditional of
    the reversed Bayes net. *)
Definition update_steps (newFactors : FactorGraph) (orphans : Cliques)
    : M BayesTree Cliques :=
  '(freedFactors, orphans) ← removeTop (keys newFactors) [] orphans;
  let combinedGraph := (toFactor <$> freedFactors) ++ newFactors in
  let ordering :=
    if SORT_KEYS then merge_sort (≤) (keys combinedGraph)
    else getOrdering combinedGraph in
  bayesNet ← lift (eliminate combinedGraph ordering);
  for_each (reverse bayesNet) (λ conditional, insert conditional ordering);;
  for_each orphans (reattach ordering);;
  mret orphans.

(** [p] owns a variable of the separator, and every variable of the
    separator is frontal in [p] or in an ancestor of [p]: a clique with
    this separator and the parent [p] has each separator variable frontal
    in a strict ancestor. *)
Definition separator_ancestor (t : BayesTree) (separator : list Symbol)
    (p : CliqueId) : Prop :=
  (∃ v, v ∈ separator ∧ find t v = Some p)
  ∧ ∀ w, w ∈ separator → ∃ x, find t w = Some x ∧ x ∈ chain t p.

(** The [i]-th ancestor of a clique, along the parent back-references. *)
Fixpoint ancestor_at (t : BayesTree) (i : nat) (c : CliqueId) : option CliqueId :=
  match i with
  | 0 => Some c
  | S i => p ← cliques_ t !! c ≫= parent_; ancestor_at t i p
  end.

(** [t'] has the cliques, index, conditionals and separators of [t]; child
    lists have only grown, and only the cliques in [handled] may have another
    parent. *)
Definition same_frame (handled : Cliques) (t t' : BayesTree) : Prop :=
  nodes_ t' = nodes_ t
  ∧ dom (cliques_ t') = dom (cliques_ t)
  ∧ ∀ c cl, cliques_ t !! c = Some cl →
      ∃ cl', cliques_ t' !! c = Some cl'
        ∧ conditional_ cl' = conditional_ cl
        ∧ separator_ cl' = separator_ cl
        ∧ (c ∉ handled → parent_ cl' = parent_ cl)
        ∧ children_ cl ⊆ children_ cl'.

(** *** Loops *)

Lemma bind_ext {St A B} (m : M St A) (k1 k2 : A → M St B) s :
  (∀ a s', k1 a s' = k2 a s') → (m ≫= k1) s = (m ≫= k2) s.
Proof.
  intros Hk. unfold mbind, M_bind. destruct (m s) as [s' [a|e]]; [apply Hk|done].
Qed.

Lemma for_each_app {St A} (l1 l2 : list A) (body : A → M St unit) s :
  for_each (l1 ++ l2) body s = (for_each l1 body;; for_each l2 body) s.
Proof.
  revert s. induction l1 as [|x l1 IH]; intros s; simpl; [done|].
  unfold mbind, M_bind in *. destruct (body x s) as [s' [[]|e]]; [|done].
  apply IH.
Qed.

Lemma for_reverse_from_take {St A} (l : list A) (base : nat)
    (body : A → M St unit) s :
  base ≤ length l →
  for_reverse_from l base body s = for_each (reverse (take base l)) body s.
Proof.
  revert s. induction base as [|base IH]; intros s Hbase; [done|].
  simpl. destruct (lookup_lt_is_Some_2 l base) as [x Hx]; [lia|].
  rewrite Hx, (take_S_r _ _ _ Hx), reverse_snoc. simpl.
  apply bind_ext. intros _ s'. apply IH. lia.
Qed.

(** The reverse-iterator loop is the loop over the reversed list. *)
Lemma for_each_reverse_spec {St A} (l : list A) (body : A → M St unit) s :
  for_each_reverse l body s = for_each (reverse l) body s.
Proof.
  unfold for_each_reverse. rewrite for_reverse_from_take by done.
  by rewrite firstn_all.
Qed.

Lemma for_each_recorded {A} (l acc : list A) :
  (for_each l (λ x s, (s ++ [x], Ok tt)) acc).1 = acc ++ l.
Proof.
  revert acc. induction l as [|x l IH]; intros acc; simpl.
  - by rewrite app_nil_r.
  - unfold mbind, M_bind. rewrite IH. by rewrite <-app_assoc.
Qed.

Lemma calls_for_each_reverse {A} (l : list A) :
  calls (for_each_reverse l) = reverse l.
Proof.
  unfold calls. rewrite for_each_reverse_spec. apply for_each_recorded.
Qed.

(** C2.  [update_internal] is the sequence of steps in which the
    conditionals of the new Bayes net are inserted in reverse elimination
    order; the insertion loop hands them to [insert] last-eliminated first:
    its [i]-th call receives the conditional at position [n - 1 - i] of the
    [n] conditionals in elimination order. *)
Theorem insert_reverse_elimination_order (newFactors : FactorGraph)
    (orphans : Cliques) (t : BayesTree) (bayesNet : BayesNet) :
  update_internal newFactors orphans t = update_steps newFactors orphans t
  ∧ (∀ index t1,
       for_each_reverse bayesNet (λ conditional, insert conditional index) t1
       = for_each (reverse bayesNet) (λ conditional, insert conditional index) t1)
  ∧ calls (for_each_reverse bayesNet) = reverse bayesNet
  ∧ (∀ i, i < length bayesNet →
       calls (for_each_reverse bayesNet) !! i
       = bayesNet !! (length bayesNet - 1 - i)).
Proof.
  split; [|split; [|split]].
  - unfold update_internal, update_steps. apply bind_ext.
    intros [bn orphans'] s. apply bind_ext. intros bn' s'.
    unfold mbind at 1 3, M_bind. by rewrite for_each_reverse_spec.
  - intros index t'. apply for_each_reverse_spec.
  - apply calls_for_each_reverse.
  - intros i Hi. rewrite calls_for_each_reverse, reverse_lookup by done.
    f_equal. lia.
Qed.

(** *** The parent search *)

Lemma unique_ancestor_Some t separator rep :
  unique_ancestor t separator = Some rep →
  ∃ p, rep ∈ separator ∧ find t rep = Some p ∧ separator_ancestor t separator p.
Proof.
  unfold unique_ancestor. destruct (mapM (find t) separator) as [owners|] eqn:Howners;
    [|done].
  simpl. destruct (list_find _ separator) as [[i v]|] eqn:Hfind; [|done].
  intros [= <-]. apply list_find_Some in Hfind as (Hi & Habove & _).
  unfold nested_above in Habove. destruct (find t v) as [p|] eqn:Hp; [|done].
  exists p. apply list_elem_of_lookup_2 in Hi as Hv.
  split; [done|]. split; [done|]. split; [by exists v|].
  intros w Hw. apply mapM_Some in Howners.
  apply list_elem_of_lookup in Hw as [j Hj].
  destruct (Forall2_lookup_l _ _ _ _ _ Howners Hj) as (x & Hx & Hfindw).
  exists x. split; [done|].
  rewrite forallb_forall in Habove.
  eapply bool_decide_eq_true_1, Habove. apply list_elem_of_In.
  by eapply list_elem_of_lookup_2.
Qed.

Lemma chain_from_lookup t fuel c i z :
  chain_from t fuel c !! i = Some z ↔ i ≤ fuel ∧ ancestor_at t i c = Some z.
Proof.
  revert c i. induction fuel as [|fuel IH]; intros c [|i]; simpl.
  - split; [by intros [= ->]|by intros [_ [= ->]]].
  - split; [done|]. intros [? _]. lia.
  - split; [intros [= ->]; split; [lia|done]|by intros [_ [= ->]]].
  - destruct (cliques_ t !! c ≫= parent_) as [p|]; simpl.
    + rewrite IH. split; intros [? ?]; (split; [lia|done]).
    + split; [done|]. by intros [_ ?].
Qed.

Lemma ancestor_at_add t i k c :
  ancestor_at t (i + k) c = ancestor_at t i c ≫= ancestor_at t k.
Proof.
  revert c. induction i as [|i IH]; intros c; simpl; [done|].
  destruct (cliques_ t !! c ≫= parent_) as [p|]; simpl; [apply IH|done].
Qed.

Lemma chain_head t c : c ∈ chain t c.
Proof. unfold chain. destruct (size (cliques_ t)); apply list_elem_of_here. Qed.

(** Two cliques on the path from a clique to its root: one is on the path
    from the other to the root. *)
Lemma chain_comparable t p x y :
  x ∈ chain t p → y ∈ chain t p → y ∈ chain t x ∨ x ∈ chain t y.
Proof.
  unfold chain. generalize (size (cliques_ t)). intros fuel.
  intros [i [Hi Hx]%chain_from_lookup]%list_elem_of_lookup.
  intros [j [Hj Hy]%chain_from_lookup]%list_elem_of_lookup.
  destruct (decide (i ≤ j)) as [Hij|Hij].
  - left. apply list_elem_of_lookup. exists (j - i).
    apply chain_from_lookup. split; [lia|].
    replace j with (i + (j - i)) in Hy by lia.
    by rewrite ancestor_at_add, Hx in Hy.
  - right. apply list_elem_of_lookup. exists (i - j).
    apply chain_from_lookup. split; [lia|].
    replace i with (j + (i - j)) in Hx by lia.
    by rewrite ancestor_at_add, Hy in Hx.
Qed.

(** Two separator variables whose owning cliques have no common ancestor:
    the search fails. *)
Lemma unique_ancestor_disjoint t separator v w x y :
  v ∈ separator → w ∈ separator →
  find t v = Some x → find t w = Some y →
  (∀ c, c ∈ chain t x → c ∉ chain t y) →
  unique_ancestor t separator = None.
Proof.
  intros Hv Hw Hx Hy Hdisjoint.
  destruct (unique_ancestor t separator) as [rep|] eqn:Hrep; [|done].
  apply unique_ancestor_Some in Hrep as (p & _ & _ & _ & Hall).
  destruct (Hall v Hv) as (x' & Hx' & Hxp).
  destruct (Hall w Hw) as (y' & Hy' & Hyp).
  rewrite Hx in Hx'. rewrite Hy in Hy'. simplify_eq.
  destruct (chain_comparable t p x' y' Hxp Hyp) as [Hyx|Hxy].
  - destruct (Hdisjoint y' Hyx). apply chain_head.
  - destruct (Hdisjoint x' (chain_head t x') Hxy).
Qed.

(** *** What the loop over the orphans leaves in place *)

Lemma same_frame_refl handled t : same_frame handled t t.
Proof.
  split; [done|]. split; [done|]. intros c cl Hc. by exists cl.
Qed.

Lemma same_frame_trans handled1 handled2 t1 t2 t3 :
  same_frame handled1 t1 t2 → same_frame handled2 t2 t3 →
  same_frame (handled1 ++ handled2) t1 t3.
Proof.
  intros (Hn1 & Hd1 & Hc1) (Hn2 & Hd2 & Hc2).
  split; [congruence|]. split; [congruence|].
  intros c cl Hc.
  destruct (Hc1 c cl Hc) as (cl' & Hc' & Hcond1 & Hsep1 & Hpar1 & Hch1).
  destruct (Hc2 c cl' Hc') as (cl'' & Hc'' & Hcond2 & Hsep2 & Hpar2 & Hch2).
  exists cl''. split; [done|]. split; [congruence|]. split; [congruence|].
  split; [|by etrans].
  intros Hnotin. rewrite Hpar2, Hpar1; [done| |];
    intros ?; apply Hnotin, elem_of_app; by (left + right).
Qed.

(** Assigning to a field other than the parent, or to the parent of a
    handled clique, stays within the frame. *)
Lemma modify_clique_frame handled c f t t' r :
  (∀ cl, conditional_ (f cl) = conditional_ cl
         ∧ separator_ (f cl) = separator_ cl
         ∧ (c ∉ handled → parent_ (f cl) = parent_ cl)
         ∧ children_ cl ⊆ children_ (f cl)) →
  modify_clique c f t = (t', r) →
  same_frame handled t t'.
Proof.
  intros Hf. unfold modify_clique.
  destruct (cliques_ t !! c) as [cl|] eqn:Hc; intros [= <- <-];
    [|apply same_frame_refl].
  split; [done|]. split.
  - simpl. rewrite dom_insert_L. apply elem_of_dom_2 in Hc.
    by apply subseteq_union_1_L, singleton_subseteq_l.
  - intros c' cl' Hc'. simpl. destruct (decide (c = c')) as [<-|Hne].
    + rewrite lookup_insert_eq. simplify_eq. exists (f cl).
      by destruct (Hf cl) as (? & ? & ? & ?).
    + rewrite lookup_insert_ne by done. by exists cl'.
Qed.

Lemma modify_clique_error c f t t' e :
  modify_clique c f t = (t', Err e) → t' = t ∧ e = StructuralError.
Proof.
  unfold modify_clique. destruct (cliques_ t !! c); by intros [= <- <-].
Qed.

(** The body of the loop, step by step. *)
Lemma reattach_unfold index orphan t :
  reattach index orphan t
  = match cliques_ t !! orphan with
    | None => (t, Err StructuralError)
    | Some clique =>
        match unique_ancestor t (separator_ clique) with
        | None => (t, Err StructuralError)
        | Some parentRepresentative =>
            match find t parentRepresentative with
            | None => (t, Err UnknownKey)
            | Some parent =>
                (modify_clique parent (add_child orphan);;
                 modify_clique orphan (set_parent (Some parent))) t
            end
        end
    end.
Proof.
  unfold reattach, deref, findParentClique, at_, mbind at 1 2 3, M_bind.
  destruct (cliques_ t !! orphan) as [clique|]; simpl; [|done].
  destruct (unique_ancestor t (separator_ clique)) as [rep|]; simpl; [|done].
  by destruct (find t rep).
Qed.

Lemma reattach_frame index orphan t t' r :
  reattach index orphan t = (t', r) → same_frame [orphan] t t'.
Proof.
  rewrite reattach_unfold.
  destruct (cliques_ t !! orphan) as [clique|];
    [|intros [= <- <-]; apply same_frame_refl].
  destruct (unique_ancestor t (separator_ clique)) as [rep|];
    [|intros [= <- <-]; apply same_frame_refl].
  destruct (find t rep) as [parent|];
    [|intros [= <- <-]; apply same_frame_refl].
  unfold mbind, M_bind.
  destruct (modify_clique parent (add_child orphan) t) as [t1 [[]|e]] eqn:H1.
  - intros H2.
    apply (modify_clique_frame [] _ _ _ _ _) in H1;
      [|intros cl; simpl; split_and!;
        [done|done|done|intros ??; apply elem_of_app; by left]].
    apply (modify_clique_frame [orphan] _ _ _ _ _) in H2;
      [|intros cl; simpl; split_and!;
        [done|done|by intros []; left|done]].
    apply (same_frame_trans [] [orphan] _ _ _ H1 H2).
  - intros [= <- <-]. apply modify_clique_error in H1 as [-> _].
    apply same_frame_refl.
Qed.

Lemma for_each_reattach_frame index orphans t t' r :
  for_each orphans (reattach index) t = (t', r) → same_frame orphans t t'.
Proof.
  revert t. induction orphans as [|o orphans IH]; intros t; simpl.
  - intros [= <- <-]. apply same_frame_refl.
  - unfold mbind, M_bind.
    destruct (reattach index o t) as [t1 [[]|e]] eqn:Ho.
    + intros Hrest. apply reattach_frame in Ho. apply IH in Hrest.
      apply (same_frame_trans [o] orphans _ _ _ Ho Hrest).
    + intros [= <- <-]. apply reattach_frame in Ho.
      apply (same_frame_trans [o] orphans _ _ _ Ho (same_frame_refl _ _)).
Qed.

(** A failure of the body, and so of the loop, is a structural error. *)
Lemma reattach_error index orphan t t' e :
  reattach index orphan t = (t', Err e) → e = StructuralError.
Proof.
  rewrite reattach_unfold.
  destruct (cliques_ t !! orphan) as [clique|]; [|by intros [= <- <-]].
  destruct (unique_ancestor t (separator_ clique)) as [rep|] eqn:Hrep;
    [|by intros [= <- <-]].
  apply unique_ancestor_Some in Hrep as (p & _ & -> & _).
  unfold mbind, M_bind.
  destruct (modify_clique p (add_child orphan) t) as [t1 [[]|e1]] eqn:H1.
  - by intros [_ ->]%modify_clique_error.
  - intros [= <- <-]. by apply modify_clique_error in H1 as [_ ->].
Qed.

Lemma for_each_reattach_error index orphans t t' e :
  for_each orphans (reattach index) t = (t', Err e) → e = StructuralError.
Proof.
  revert t. induction orphans as [|o orphans IH]; intros t; simpl; [done|].
  unfold mbind, M_bind.
  destruct (reattach index o t) as [t1 [[]|e1]] eqn:Ho.
  - apply IH.
  - intros [= <- <-]. by apply reattach_error in Ho.
Qed.

(** The ancestors of a clique that is not below a handled clique are the
    same in both trees. *)
Lemma chain_from_frame handled t t' fuel x :
  same_frame handled t t' →
  (∀ c, c ∈ handled → c ∉ chain_from t fuel x) →
  chain_from t' fuel x = chain_from t fuel x.
Proof.
  intros (_ & Hdom & Hframe). revert x.
  induction fuel as [|fuel IH]; intros x Hhandled; [done|].
  simpl in *. f_equal.
  destruct (cliques_ t !! x) as [cl|] eqn:Hx.
  - destruct (Hframe x cl Hx) as (cl' & -> & _ & _ & Hparent & _).
    simpl in *. rewrite Hparent
      by (intros Hx'; apply (Hhandled x Hx'); apply list_elem_of_here).
    destruct (parent_ cl) as [p|]; [|done].
    apply IH. intros c Hc Hin. apply (Hhandled c Hc).
    by apply list_elem_of_further.
  - apply not_elem_of_dom in Hx. rewrite <-Hdom in Hx.
    apply not_elem_of_dom in Hx. by rewrite Hx.
Qed.

Lemma chain_frame handled t t' x :
  same_frame handled t t' →
  (∀ c, c ∈ handled → c ∉ chain t x) →
  chain t' x = chain t x.
Proof.
  intros Hframe Hhandled. unfold chain.
  replace (size (cliques_ t')) with (size (cliques_ t)).
  - by eapply chain_from_frame.
  - destruct Hframe as (_ & Hdom & _).
    by rewrite <-!(size_dom (D:=gset CliqueId)), Hdom.
Qed.

(** *** The update *)

Lemma update_internal_rebuild newFactors orphans t :
  update_internal newFactors orphans t
  = ('(orphans, index) ← rebuild newFactors orphans;
     for_each orphans (reattach index);;
     mret orphans) t.
Proof.
  unfold update_internal, rebuild, mbind, M_bind, lift.
  destruct (removeTop _ _ _ _) as [t1 [[bn orphans']|e]]; [|done].
  destruct (eliminate _ _) as [bayesNet|e]; [|done].
  by destruct (for_each_reverse _ _ _) as [t2 [[]|e]].
Qed.

Lemma for_each_app_Ok {St A} (l1 l2 : list A) (body : A → M St unit) s s' :
  for_each (l1 ++ l2) body s = (s', Ok tt) →
  ∃ s1, for_each l1 body s = (s1, Ok tt) ∧ for_each l2 body s1 = (s', Ok tt).
Proof.
  rewrite for_each_app. unfold mbind, M_bind.
  destruct (for_each l1 body s) as [s1 [[]|e]]; [|done]. by exists s1.
Qed.

Lemma last_occurrence (o : CliqueId) (l : Cliques) :
  o ∈ l → ∃ pre post, l = pre ++ o :: post ∧ o ∉ post.
Proof.
  induction l as [|x l IH]; [by intros ?%elem_of_nil|].
  intros Hin. destruct (decide (o ∈ l)) as [Hl|Hl].
  - destruct (IH Hl) as (pre & post & -> & Hpost). by exists (x :: pre), post.
  - apply elem_of_cons in Hin as [->|?]; [|done]. by exists [], l.
Qed.

(** A successful pass of the body links the orphan and the clique found
    for its separator, in both directions. *)
Lemma reattach_Ok index orphan t t' :
  reattach index orphan t = (t', Ok tt) →
  ∃ cl p pcl ocl,
    cliques_ t !! orphan = Some cl
    ∧ separator_ancestor t (separator_ cl) p
    ∧ cliques_ t' !! orphan = Some ocl ∧ parent_ ocl = Some p
    ∧ cliques_ t' !! p = Some pcl ∧ orphan ∈ children_ pcl.
Proof.
  rewrite reattach_unfold.
  destruct (cliques_ t !! orphan) as [cl|] eqn:Ho; [|done].
  destruct (unique_ancestor t (separator_ cl)) as [rep|] eqn:Hrep; [|done].
  apply unique_ancestor_Some in Hrep as (p & _ & -> & Hancestor).
  unfold mbind, M_bind, modify_clique.
  destruct (cliques_ t !! p) as [pcl|] eqn:Hp; [|done]. simpl.
  destruct (decide (p = orphan)) as [->|Hne].
  - rewrite lookup_insert_eq. intros [= <-]. simpl.
    eexists cl, orphan, _, _. rewrite !lookup_insert_eq.
    split_and!; try done. simpl. apply elem_of_app. right. by left.
  - rewrite lookup_insert_ne, Ho by done. intros [= <-]. simpl.
    eexists cl, p, _, _. rewrite lookup_insert_eq.
    rewrite lookup_insert_ne, lookup_insert_eq by done.
    split_and!; try done. simpl. apply elem_of_app. right. by left.
Qed.

(** The running intersection (specification, section 3, invariant 2) for
    a clique that the body has linked: when the clique found is not below
    the orphan, every separator variable of the orphan is frontal in its
    new parent or in an ancestor of its new parent. *)
Lemma reattach_running_intersection index orphan t t' :
  reattach index orphan t = (t', Ok tt) →
  ∃ cl p ocl,
    cliques_ t !! orphan = Some cl
    ∧ cliques_ t' !! orphan = Some ocl ∧ parent_ ocl = Some p
    ∧ separator_ ocl = separator_ cl
    ∧ (orphan ∉ chain t p →
       ∀ w, w ∈ separator_ ocl → ∃ x, find t' w = Some x ∧ x ∈ chain t' p).
Proof.
  intros Hbody. pose proof (reattach_frame _ _ _ _ _ Hbody) as Hframe.
  apply reattach_Ok in Hbody
    as (cl & p & pcl & ocl & Hcl & [_ Hall] & Hocl & Hpar & _).
  exists cl, p, ocl. split; [done|]. split; [done|]. split; [done|].
  pose proof Hframe as (Hnodes & _ & Hcliques).
  destruct (Hcliques orphan cl Hcl) as (ocl' & Hocl' & _ & Hsep & _).
  assert (ocl' = ocl) as -> by congruence.
  split; [done|]. intros Hbelow w Hw. rewrite Hsep in Hw.
  destruct (Hall w Hw) as (x & Hx & Hxp). exists x.
  unfold find in *. rewrite Hnodes. split; [done|].
  rewrite (chain_frame [orphan] t t' p); [done|done|].
  by intros c ->%list_elem_of_singleton.
Qed.

(** C1.  Let the steps before the loop over the orphans leave the tree
    [t2] and the orphans [pre ++ o :: post], and let the separator of the
    orphan [o] hold two variables whose owning cliques [x] and [y] are
    rooted in disjoint subtrees of [t2]: no clique is an ancestor of both,
    and neither is below an orphan handled before [o].  Then
    [update_internal] throws a structural error, and so does [update]; in
    the tree it leaves, only orphans handled before [o] may have a new
    parent, so [o] has been attached nowhere unless it was handled before. *)
Theorem update_fails_on_disjoint_subtrees (newFactors : FactorGraph)
    (orphans0 orphans pre post : Cliques) (index : IndexTable)
    (t t2 : BayesTree) (o x y : CliqueId) (cl : Clique) (v w : Symbol) :
  rebuild newFactors orphans0 t = (t2, Ok (orphans, index)) →
  orphans = pre ++ o :: post →
  cliques_ t2 !! o = Some cl →
  v ∈ separator_ cl → w ∈ separator_ cl →
  find t2 v = Some x → find t2 w = Some y →
  (∀ c, c ∈ chain t2 x → c ∉ chain t2 y) →
  (∀ c, c ∈ pre → (c ∉ chain t2 x) ∧ (c ∉ chain t2 y)) →
  ∃ t',
    update_internal newFactors orphans0 t = (t', Err StructuralError)
    ∧ (orphans0 = [] → update newFactors t = (t', Err StructuralError))
    ∧ same_frame pre t2 t'
    ∧ (o ∉ pre →
       ∃ cl', cliques_ t' !! o = Some cl' ∧ parent_ cl' = parent_ cl).
Proof.
  intros Hrebuild -> Ho Hv Hw Hx Hy Hdisjoint Hnew.
  assert (∃ t', for_each (pre ++ o :: post) (reattach index) t2
                = (t', Err StructuralError) ∧ same_frame pre t2 t')
    as (t' & Hloop & Hframe).
  { rewrite for_each_app. unfold mbind, M_bind.
    destruct (for_each pre (reattach index) t2) as [t' [[]|e]] eqn:Hpre.
    - exists t'. pose proof (for_each_reattach_frame _ _ _ _ _ Hpre) as Hframe.
      split; [|done]. simpl. unfold mbind, M_bind. rewrite reattach_unfold.
      destruct Hframe as (Hnodes & Hdom & Hcliques).
      destruct (Hcliques o cl Ho) as (cl' & -> & _ & -> & _).
      rewrite (unique_ancestor_disjoint t' (separator_ cl) v w x y); try done.
      + unfold find. by rewrite Hnodes.
      + unfold find. by rewrite Hnodes.
      + assert (same_frame pre t2 t') as Hframe by done.
        rewrite (chain_frame pre t2 t' x), (chain_frame pre t2 t' y);
          [done|done| |done|]; intros c ?; by apply Hnew.
    - exists t'. apply for_each_reattach_error in Hpre as He. subst e.
      split; [done|]. by eapply for_each_reattach_frame. }
  exists t'.
  assert (update_internal newFactors orphans0 t = (t', Err StructuralError))
    as Hupdate.
  { rewrite update_internal_rebuild. unfold mbind at 1, M_bind at 1.
    rewrite Hrebuild. unfold mbind, M_bind. by rewrite Hloop. }
  split; [done|]. split.
  { intros ->. unfold update, mbind, M_bind. by rewrite Hupdate. }
  split; [done|]. intros Hpre.
  destruct Hframe as (_ & _ & Hcliques).
  destruct (Hcliques o cl Ho) as (cl' & ? & _ & _ & Hparent & _).
  exists cl'. split; [done|]. by apply Hparent.
Qed.

(** C7.  When [update_internal] returns, every orphan [o] has a parent [p]
    with both links set in the final tree: the parent back-reference of [o]
    is [p] and [o] is in the child list of [p].  For [o] at its last place
    in the list of orphans, [p] is the clique the search finds for the
    separator of [o] in the tree as the loop has it then: [p] owns a
    separator variable, and every separator variable is frontal in [p] or
    in an ancestor of [p], so that below [p] every separator variable of
    [o] is frontal in a strict ancestor of [o]; this is so in the tree [t2]
    that the insertions left, when no owning clique of a separator variable
    is below an orphan handled before [o]. *)
Theorem update_reattaches_orphans (newFactors : FactorGraph)
    (orphans0 orphans : Cliques) (t t3 : BayesTree) :
  update_internal newFactors orphans0 t = (t3, Ok orphans) →
  ∃ t2 index,
    rebuild newFactors orphans0 t = (t2, Ok (orphans, index))
    ∧ (∀ o, o ∈ orphans →
         ∃ p pcl ocl,
           cliques_ t3 !! o = Some ocl ∧ parent_ ocl = Some p
           ∧ cliques_ t3 !! p = Some pcl ∧ o ∈ children_ pcl)
    ∧ ∀ pre o post, orphans = pre ++ o :: post → o ∉ post →
        ∃ t_o cl p pcl ocl,
          for_each pre (reattach index) t2 = (t_o, Ok tt)
          ∧ cliques_ t2 !! o = Some cl
          ∧ separator_ancestor t_o (separator_ cl) p
          ∧ ((∀ w x c, w ∈ separator_ cl → find t2 w = Some x →
                c ∈ pre → c ∉ chain t2 x) →
             separator_ancestor t2 (separator_ cl) p)
          ∧ cliques_ t3 !! o = Some ocl ∧ parent_ ocl = Some p
          ∧ cliques_ t3 !! p = Some pcl ∧ o ∈ children_ pcl.
Proof.
  intros Hupdate.
  cut (∃ t2 index,
         rebuild newFactors orphans0 t = (t2, Ok (orphans, index))
         ∧ ∀ pre o post, orphans = pre ++ o :: post → o ∉ post →
             ∃ t_o cl p pcl ocl,
               for_each pre (reattach index) t2 = (t_o, Ok tt)
               ∧ cliques_ t2 !! o = Some cl
               ∧ separator_ancestor t_o (separator_ cl) p
               ∧ ((∀ w x c, w ∈ separator_ cl → find t2 w = Some x →
                     c ∈ pre → c ∉ chain t2 x) →
                  separator_ancestor t2 (separator_ cl) p)
               ∧ cliques_ t3 !! o = Some ocl ∧ parent_ ocl = Some p
               ∧ cliques_ t3 !! p = Some pcl ∧ o ∈ children_ pcl).
  { intros (t2 & index & Hrebuild & Hlast). exists t2, index.
    split; [done|]. split.
    - intros o (pre & post & -> & Hpost)%last_occurrence.
      destruct (Hlast pre o post eq_refl Hpost)
        as (_ & _ & p & pcl & ocl & _ & _ & _ & _ & ? & ? & ? & ?).
      by exists p, pcl, ocl.
    - done. }
  revert Hupdate.
  rewrite update_internal_rebuild. unfold mbind at 1, M_bind at 1.
  destruct (rebuild newFactors orphans0 t) as [t2 [[orphans' index]|e]];
    [|done].
  unfold mbind, M_bind.
  destruct (for_each orphans' (reattach index) t2) as [t3' [[]|e]] eqn:Hloop;
    [|done].
  intros [= -> ->]. exists t2, index. split; [done|].
  intros pre o post -> Hlast.
  apply for_each_app_Ok in Hloop as (t_o & Hpre & Hloop).
  simpl in Hloop. unfold mbind, M_bind in Hloop.
  destruct (reattach index o t_o) as [t_o' [[]|e]] eqn:Ho; [|done].
  apply reattach_Ok in Ho as (cl_o & p & pcl & ocl & Hcl_o & Hanc & Hocl & Hpar & Hpcl & Hchild).
  pose proof (for_each_reattach_frame _ _ _ _ _ Hpre) as Hframe_pre.
  pose proof (for_each_reattach_frame _ _ _ _ _ Hloop)
    as (_ & _ & Hframe_post).
  destruct (Hframe_post o ocl Hocl) as (ocl3 & Hocl3 & _ & _ & Hpar3 & _).
  destruct (Hframe_post p pcl Hpcl) as (pcl3 & Hpcl3 & _ & _ & _ & Hchild3).
  assert (∃ cl, cliques_ t2 !! o = Some cl ∧ separator_ cl_o = separator_ cl)
    as (cl & Hcl & Hsep).
  { destruct Hframe_pre as (_ & Hdom & Hcliques).
    destruct (cliques_ t2 !! o) as [cl|] eqn:Hcl.
    - destruct (Hcliques o cl Hcl) as (cl' & Hcl' & _ & Hsep & _).
      exists cl. split; [done|]. congruence.
    - apply not_elem_of_dom in Hcl. rewrite <-Hdom in Hcl.
      apply not_elem_of_dom in Hcl. congruence. }
  rewrite Hsep in Hanc.
  exists t_o, cl, p, pcl3, ocl3. split_and!; try done.
  - intros Hnew. destruct Hanc as [(v & Hv & Hfind) Hall].
    pose proof Hframe_pre as (Hnodes & _ & _).
    unfold find in *. rewrite Hnodes in Hfind. split; [by exists v|].
    intros w Hw. destruct (Hall w Hw) as (x & Hx & Hxp). rewrite Hnodes in Hx.
    exists x. split; [done|].
    rewrite <-(chain_frame pre t2 t_o); [done|done|].
    intros c Hc. by apply (Hnew v p c).
  - by rewrite Hpar3.
  - by apply Hchild3.
Qed.

(** *** Failures, and what the loop over the orphans leaves *)

(** The graph that is eliminated and the ordering chosen for it. *)
Definition combined_graph (bn : BayesNet) (newFactors : FactorGraph) : FactorGraph :=
  (toFactor <$> bn) ++ newFactors.

Definition chosen_ordering (factors : FactorGraph) : list Symbol :=
  if SORT_KEYS then merge_sort (≤) (keys factors) else getOrdering factors.

(** Every child list of [t] is kept in [t'], with cliques of [handled]
    appended to it. *)
Definition children_grown_by (handled : Cliques) (t t' : BayesTree) : Prop :=
  ∀ c cl, cliques_ t !! c = Some cl →
    ∃ cl' appended, cliques_ t' !! c = Some cl'
      ∧ children_ cl' = children_ cl ++ appended
      ∧ ∀ x, x ∈ appended → x ∈ handled.

Lemma children_grown_by_refl handled t : children_grown_by handled t t.
Proof.
  intros c cl Hc. exists cl, []. rewrite app_nil_r.
  split; [done|]. split; [done|]. by intros x ?%elem_of_nil.
Qed.

Lemma children_grown_by_trans handled1 handled2 t1 t2 t3 :
  children_grown_by handled1 t1 t2 → children_grown_by handled2 t2 t3 →
  children_grown_by (handled1 ++ handled2) t1 t3.
Proof.
  intros H12 H23 c cl Hc.
  destruct (H12 c cl Hc) as (cl' & app1 & Hc' & Hch1 & Happ1).
  destruct (H23 c cl' Hc') as (cl'' & app2 & Hc'' & Hch2 & Happ2).
  exists cl'', (app1 ++ app2). split; [done|]. split.
  - by rewrite Hch2, Hch1, <-app_assoc.
  - intros x [?|?]%elem_of_app; apply elem_of_app; [left|right]; auto.
Qed.

Lemma modify_clique_grown handled c f t t' r :
  (∀ cl, ∃ appended, children_ (f cl) = children_ cl ++ appended
           ∧ ∀ x, x ∈ appended → x ∈ handled) →
  modify_clique c f t = (t', r) →
  children_grown_by handled t t'.
Proof.
  intros Hf. unfold modify_clique.
  destruct (cliques_ t !! c) as [cl|] eqn:Hc; intros [= <- <-];
    [|apply children_grown_by_refl].
  intros c' cl' Hc'. simpl. destruct (decide (c = c')) as [<-|Hne].
  - rewrite lookup_insert_eq. simplify_eq.
    destruct (Hf cl) as (appended & ? & ?). by exists (f cl), appended.
  - rewrite lookup_insert_ne by done. exists cl', [].
    rewrite app_nil_r. split; [done|]. split; [done|]. by intros x ?%elem_of_nil.
Qed.

Lemma reattach_grown index orphan t t' r :
  reattach index orphan t = (t', r) → children_grown_by [orphan] t t'.
Proof.
  rewrite reattach_unfold.
  destruct (cliques_ t !! orphan) as [clique|];
    [|intros [= <- <-]; apply children_grown_by_refl].
  destruct (unique_ancestor t (separator_ clique)) as [rep|];
    [|intros [= <- <-]; apply children_grown_by_refl].
  destruct (find t rep) as [parent|];
    [|intros [= <- <-]; apply children_grown_by_refl].
  unfold mbind, M_bind.
  destruct (modify_clique parent (add_child orphan) t) as [t1 [[]|e]] eqn:H1.
  - intros H2.
    apply (modify_clique_grown [orphan] _ _ _ _ _) in H1.
    2:{ intros cl. exists [orphan]. split; [done|]. by intros x. }
    apply (modify_clique_grown [] _ _ _ _ _) in H2.
    2:{ intros cl. exists []. simpl. by rewrite app_nil_r. }
    apply (children_grown_by_trans [orphan] [] _ _ _ H1) in H2.
    by rewrite app_nil_r in H2.
  - intros [= <- <-]. apply modify_clique_error in H1 as [-> _].
    apply children_grown_by_refl.
Qed.

Lemma for_each_reattach_grown index orphans t t' r :
  for_each orphans (reattach index) t = (t', r) →
  children_grown_by orphans t t'.
Proof.
  revert t. induction orphans as [|o orphans IH]; intros t; simpl.
  - intros [= <- <-]. apply children_grown_by_refl.
  - unfold mbind, M_bind.
    destruct (reattach index o t) as [t1 [[]|e]] eqn:Ho.
    + intros Hrest. apply reattach_grown in Ho. apply IH in Hrest.
      apply (children_grown_by_trans [o] orphans _ _ _ Ho Hrest).
    + intros [= <- <-]. apply reattach_grown in Ho.
      apply (children_grown_by_trans [o] orphans _ _ _ Ho
               (children_grown_by_refl _ _)).
Qed.

(** X8.  [update_internal] restores nothing when a step throws: it leaves
    the tree as the throwing step left it and throws the same exception.
    When [removeTop] throws, that is the tree [removeTop] left; when the
    elimination throws, the tree with the top removed; when [insert] throws
    for a conditional, the tree with the conditionals eliminated after it
    inserted, and neither the conditionals eliminated before it nor the
    orphans are put back. *)
Theorem update_internal_throws_midway (newFactors : FactorGraph)
    (orphans0 : Cliques) (t : BayesTree) :
  (∀ t1 e,
     removeTop (keys newFactors) [] orphans0 t = (t1, Err e) →
     update_internal newFactors orphans0 t = (t1, Err e))
  ∧ (∀ t1 bn orphans e,
       removeTop (keys newFactors) [] orphans0 t = (t1, Ok (bn, orphans)) →
       eliminate (combined_graph bn newFactors)
         (chosen_ordering (combined_graph bn newFactors)) = Err e →
       update_internal newFactors orphans0 t = (t1, Err e))
  ∧ (∀ t1 bn orphans first conditional last t2 t2' e,
       removeTop (keys newFactors) [] orphans0 t = (t1, Ok (bn, orphans)) →
       let ordering := chosen_ordering (combined_graph bn newFactors) in
       eliminate (combined_graph bn newFactors) ordering
       = Ok (first ++ conditional :: last) →
       for_each (reverse last) (λ c, insert c ordering) t1 = (t2, Ok tt) →
       insert conditional ordering t2 = (t2', Err e) →
       update_internal newFactors orphans0 t = (t2', Err e)).
Proof.
  unfold update_internal, combined_graph, chosen_ordering, mbind, M_bind, lift.
  split; [|split].
  - by intros t1 e ->.
  - intros t1 bn orphans e -> Helim. cbv beta iota.
    unfold Symbol in *. by rewrite Helim.
  - intros t1 bn orphans first c last t2 t2' e -> Helim Hlast Hc.
    cbv beta iota.
    unfold Symbol in *. rewrite Helim, for_each_reverse_spec.
    rewrite reverse_app, reverse_cons, <-app_assoc, for_each_app.
    unfold mbind, M_bind. rewrite Hlast. simpl.
    unfold mbind, M_bind. by rewrite Hc.
Qed.

(** X9.  Whether it returns or throws, the loop over the orphans changes
    nothing of the tree but links of the orphans: the index maps every key
    as the insertions left it, every clique is still there with its
    conditional and separator, only orphans may have another parent, and
    every child list is the one the insertions left with orphans appended
    to it. *)
Theorem orphan_loop_changes_links_only (newFactors : FactorGraph)
    (orphans0 orphans : Cliques) (index : IndexTable) (t t2 t3 : BayesTree)
    (r : result Cliques) :
  rebuild newFactors orphans0 t = (t2, Ok (orphans, index)) →
  update_internal newFactors orphans0 t = (t3, r) →
  nodes_ t3 = nodes_ t2
  ∧ dom (cliques_ t3) = dom (cliques_ t2)
  ∧ (∀ c cl, cliques_ t2 !! c = Some cl →
       ∃ cl', cliques_ t3 !! c = Some cl'
         ∧ conditional_ cl' = conditional_ cl
         ∧ separator_ cl' = separator_ cl
         ∧ (c ∉ orphans → parent_ cl' = parent_ cl))
  ∧ children_grown_by orphans t2 t3.
Proof.
  intros Hrebuild. rewrite update_internal_rebuild.
  unfold mbind at 1, M_bind at 1. rewrite Hrebuild. unfold mbind, M_bind.
  destruct (for_each orphans (reattach index) t2) as [t3' r'] eqn:Hloop.
  intros Hfinal. assert (t3' = t3) as ->
    by (destruct r'; by injection Hfinal).
  pose proof (for_each_reattach_frame _ _ _ _ _ Hloop) as (Hnodes & Hdom & Hframe).
  split; [done|]. split; [done|]. split.
  - intros c cl Hc. destruct (Hframe c cl Hc) as (cl' & ? & ? & ? & ? & _).
    by exists cl'.
  - by eapply for_each_reattach_grown.
Qed.

End ISAM.


(** *** The absent operations, from the specification *)

Section Operations.

Context {Conditional Factor : Type}.
Variable cond_frontals : Conditional → list Symbol.
Variable cond_parents : Conditional → list Symbol.
Variable factor_keys : Factor → list Symbol.
(** The kind-specific step of elimination: the factors touching a key are
    combined and factored into a conditional and a residual factor. *)
Variable eliminateOne : Symbol → list Factor → result (Conditional * Factor).

Local Abbreviation BayesTree := (@BayesTree Conditional).
Local Abbreviation Clique := (@Clique Conditional).
Local Abbreviation BayesNet := (list Conditional).
Local Abbreviation FactorGraph := (list Factor).
Local Abbreviation Cliques := (list CliqueId).

(** A clique that is not yet in the arena. *)
Definition new_clique (t : BayesTree) : CliqueId := fresh (dom (cliques_ t)).

(** A new clique enters the arena and the index maps its frontal variables
    to it. *)
Definition allocate (cl : Clique) (frontals : list Symbol) : M BayesTree CliqueId := λ t,
  let clique := new_clique t in
  ({| cliques_ := <[clique := cl]> (cliques_ t);
      nodes_ := foldr (λ v, <[v := clique]>) (nodes_ t) frontals |}, Ok clique).

Definition owned (frontals : list Symbol) : M BayesTree bool :=
  gets (λ t, bool_decide (Exists (λ v, is_Some (find t v)) frontals)).

(** Modelled from the spec (4.2): with an empty separator the clique
    becomes a new root; otherwise the parent is searched, the clique is
    created and attached as its child; each frontal variable is registered
    in the index.  A frontal variable that some clique owns already is a
    structural error (section 7). *)
Definition insert (conditional : Conditional) (index : IndexTable) : M BayesTree unit :=
  let separator := cond_parents conditional in
  duplicate ← owned (cond_frontals conditional);
  if (duplicate : bool) then throw StructuralError
  else
    match separator with
    | [] =>
        allocate {| conditional_ := conditional; separator_ := separator;
                    parent_ := None; children_ := [] |}
                 (cond_frontals conditional);;
        mret tt
    | _ =>
        parentRepresentative ← findParentClique separator index;
        parent ← at_ parentRepresentative;
        clique ← allocate {| conditional_ := conditional; separator_ := separator;
                             parent_ := Some parent; children_ := [] |}
                          (cond_frontals conditional);
        modify_clique parent (add_child clique)
    end.

(** The owning cliques of the keys; a key that is not in the index is
    passed over. *)
Definition owning_cliques (t : BayesTree) (keys : list Symbol) : Cliques :=
  remove_dups (omap (find t) keys).

(** The selected cliques that are not below another selected clique. *)
Definition topmost (t : BayesTree) (selected : Cliques) : Cliques :=
  filter (λ c, Forall (λ a, a ∉ selected) (tail (chain t c))) selected.

(** Modelled from the spec (4.2): the topmost owning cliques of the keys
    are selected and the subtree of each is collected; the conditionals of
    the collected cliques are appended to [bn]; the children of collected
    cliques that are not collected are detached and appended to [orphans];
    the collected cliques are destroyed and their frontal variables leave
    the index. *)
Definition removeTop (keys : list Symbol) (bn : BayesNet) (orphans : Cliques)
    : M BayesTree (BayesNet * Cliques) := λ t,
  let selected := topmost t (owning_cliques t keys) in
  let collected := remove_dups (selected ≫= subtree t) in
  let cliques := omap (λ c, cliques_ t !! c) collected in
  let detached := filter (λ c, c ∉ collected) (cliques ≫= children_) in
  let unlinked :=
    foldr (λ c arena,
             match cliques_ t !! c ≫= parent_ with
             | Some p => alter (remove_child c) p arena
             | None => arena
             end) (cliques_ t) selected in
  let arena := foldr (alter (set_parent None))
                     (foldr delete unlinked collected) detached in
  let index := foldr delete (nodes_ t)
                     (cliques ≫= (cond_frontals ∘ conditional_)) in
  ({| cliques_ := arena; nodes_ := index |},
   Ok (bn ++ (conditional_ <$> cliques), orphans ++ detached)).

(** Modelled from the spec (4.1): for each variable in ordering order the
    factors touching it are combined and factored into a conditional and a
    residual factor, which replaces them; the conditionals are emitted in
    elimination order. *)
Fixpoint eliminate (factors : FactorGraph) (ordering : list Symbol) : result BayesNet :=
  match ordering with
  | [] => Ok []
  | v :: ordering =>
      let touching := filter (λ f, v ∈ factor_keys f) factors in
      let others := filter (λ f, v ∉ factor_keys f) factors in
      '(conditional, residual) ← eliminateOne v touching;
      bayesNet ← eliminate (others ++ [residual]) ordering;
      Ok (conditional :: bayesNet)
  end.


(** *** The update with these operations *)

Variable toFactor : Conditional → Factor.
Variable getOrdering : list Factor → list Symbol.
Variable SORT_KEYS : bool.

(** Specification, 4.3 step 4: the ordering policy is free, but the
    ordering holds every variable of the graph exactly once. *)
Hypothesis getOrdering_keys :
  ∀ factors, getOrdering factors ≡ₚ keys factor_keys factors.

Definition isam_update_internal (newFactors : FactorGraph) (orphans : Cliques)
    : M BayesTree Cliques :=
  update_internal factor_keys toFactor getOrdering SORT_KEYS
    removeTop eliminate insert newFactors orphans.

Definition isam_update (newFactors : FactorGraph) : M BayesTree unit :=
  update factor_keys toFactor getOrdering SORT_KEYS
    removeTop eliminate insert newFactors.

Lemma removeTop_nil bn orphans t :
  removeTop [] bn orphans t = (t, Ok (bn, orphans)).
Proof.
  destruct t as [cliques nodes]. unfold removeTop. simpl.
  by rewrite !app_nil_r.
Qed.

(** C6.  [update] with no factor returns, and the tree it leaves is the
    tree it was given: the index maps every variable to the clique it
    mapped to, and that clique holds the conditional it held. *)
Theorem update_empty (t : BayesTree) :
  isam_update [] t = (t, Ok tt)
  ∧ ∀ t', (isam_update [] t).1 = t' →
      nodes_ t' = nodes_ t
      ∧ ∀ v c cl, find t v = Some c → cliques_ t !! c = Some cl →
          find t' v = Some c
          ∧ conditional_ <$> cliques_ t' !! c = Some (conditional_ cl).
Proof using getOrdering_keys.
  assert (isam_update [] t = (t, Ok tt)) as Hupdate.
  { unfold isam_update, update, update_internal, mbind, M_bind.
    change (keys factor_keys []) with (@nil Symbol).
    rewrite removeTop_nil. simpl.
    assert ((if SORT_KEYS then merge_sort le (keys factor_keys [])
             else getOrdering []) = []) as ->.
    { destruct SORT_KEYS; [done|].
      apply Permutation_nil_r. by rewrite getOrdering_keys. }
    done. }
  split; [done|]. intros t' <-. rewrite Hupdate. simpl. split; [done|].
  intros v c cl Hv Hc. by rewrite Hc.
Qed.

End Operations.

(** *** A symbolic instance

    A conditional is given by its frontal variables and its parents, a
    factor by the keys it touches; eliminating a key from factors leaves
    the other keys they touch. *)

Definition SymConditional : Type := list Symbol * list Symbol.
Definition SymFactor : Type := list Symbol.

Definition sym_eliminateOne (v : Symbol) (touching : list SymFactor)
    : result (SymConditional * SymFactor) :=
  let separator := filter (λ k, k ≠ v) (remove_dups (mjoin touching)) in
  Ok (([v], separator), separator).

Definition sym_toFactor (c : SymConditional) : SymFactor := c.1 ++ c.2.

Definition sym_getOrdering (factors : list SymFactor) : list Symbol :=
  keys id factors.

Definition sym_update_internal :=
  isam_update_internal fst snd id sym_eliminateOne sym_toFactor sym_getOrdering false.

Definition sym_update :=
  isam_update fst snd id sym_eliminateOne sym_toFactor sym_getOrdering false.

Definition sym_rebuild :=
  rebuild id sym_toFactor sym_getOrdering false
    (removeTop fst) (eliminate id sym_eliminateOne) (insert fst snd).

Definition sym_clique (frontal : Symbol) (separator : list Symbol)
    (parent : option CliqueId) (children : list CliqueId) : @Clique SymConditional :=
  {| conditional_ := ([frontal], separator);
     separator_ := separator;
     parent_ := parent;
     children_ := children |}.

(** Two roots, owning [x1] and [x2], and a detached clique on [x3] whose
    separator is [x1, x2]. *)
Definition two_roots : @BayesTree SymConditional :=
  {| cliques_ := {[ 0 := sym_clique 1 [] None [];
                    1 := sym_clique 2 [] None [];
                    2 := sym_clique 3 [1; 2] None [] ]};
     nodes_ := {[ 1 := 0; 2 := 1; 3 := 2 ]} |}.

(** A root owning [x1] and a detached clique on [x2] given [x1]. *)
Definition one_root : @BayesTree SymConditional :=
  {| cliques_ := {[ 0 := sym_clique 1 [] None [];
                    1 := sym_clique 2 [1] None [] ]};
     nodes_ := {[ 1 := 0; 2 := 1 ]} |}.

Definition two_roots_rebuilt : @BayesTree SymConditional :=
  (sym_rebuild [[4]] [2] two_roots).1.

Lemma two_roots_rebuild :
  sym_rebuild [[4]] [2] two_roots = (two_roots_rebuilt, Ok ([2], [4])).
Proof. by vm_compute. Qed.

Lemma two_roots_chains :
  chain two_roots_rebuilt 0 = [0] ∧ chain two_roots_rebuilt 1 = [1].
Proof. by vm_compute. Qed.

(** The detached clique on [x3] has its separator variables [x1] and [x2]
    owned by two roots: the update with [f(x4)] throws. *)
Lemma update_fails_on_disjoint_subtrees_witness :
  ∃ t', sym_update_internal [[4]] [2] two_roots = (t', Err StructuralError).
Proof.
  destruct (update_fails_on_disjoint_subtrees id sym_toFactor sym_getOrdering
              false (removeTop fst) (eliminate id sym_eliminateOne)
              (insert fst snd) [[4]] [2] [2] [] [] [4] two_roots
              two_roots_rebuilt 2 0 1 (sym_clique 3 [1; 2] None []) 1 2
              two_roots_rebuild eq_refl)
    as (t' & Ht' & _).
  - by vm_compute.
  - by left.
  - right. by left.
  - by vm_compute.
  - by vm_compute.
  - destruct two_roots_chains as [-> ->].
    by intros c ->%list_elem_of_singleton ?%list_elem_of_singleton.
  - by intros c ?%elem_of_nil.
  - by exists t'.
Defined.

(** A root owning [x1], below it the clique of [x2] given [x1], and a
    detached clique on [x3] whose separator is [x1, x2]. *)
Definition chain_tree : @BayesTree SymConditional :=
  {| cliques_ := {[ 0 := sym_clique 1 [] None [1];
                    1 := sym_clique 2 [1] (Some 0) [];
                    2 := sym_clique 3 [1; 2] None [] ]};
     nodes_ := {[ 1 := 0; 2 := 1; 3 := 2 ]} |}.

(** The detached clique on [x3] given [x1, x2] is linked by the update
    with [f(x4)] below the clique of [x2], which has the root that owns
    [x1] as its parent: both separator variables are then frontal in a
    strict ancestor of the clique on [x3]. *)
Lemma update_reattaches_orphans_witness :
  ∃ ocl pcl,
    cliques_ (sym_update_internal [[4]] [2] chain_tree).1 !! 2 = Some ocl
    ∧ parent_ ocl = Some 1
    ∧ cliques_ (sym_update_internal [[4]] [2] chain_tree).1 !! 1 = Some pcl
    ∧ 2 ∈ children_ pcl
    ∧ chain (sym_update_internal [[4]] [2] chain_tree).1 2 = [2; 1; 0].
Proof.
  destruct (update_reattaches_orphans id sym_toFactor sym_getOrdering
              false (removeTop fst) (eliminate id sym_eliminateOne)
              (insert fst snd) [[4]] [2] [2] chain_tree
              (sym_update_internal [[4]] [2] chain_tree).1)
    as (t2 & index & _ & _ & Horphans).
  - by vm_compute.
  - destruct (Horphans [] 2 [] eq_refl)
      as (t_o & cl & p & pcl & ocl & Hpre & Hcl & Hanc & _ & Hocl & Hpar & Hpcl & Hchild).
    { by intros ?%elem_of_nil. }
    assert (ocl = sym_clique 3 [1; 2] (Some 1) []) as ->.
    { apply (inj Some). rewrite <-Hocl. by vm_compute. }
    injection Hpar as <-.
    exists (sym_clique 3 [1; 2] (Some 1) []), pcl.
    split_and!; first [done | by vm_compute].
Defined.

(** The update with no factor leaves [one_root] as it is. *)
Lemma update_empty_witness :
  sym_update [] one_root = (one_root, Ok tt).
Proof.
  exact (proj1 (update_empty fst snd id sym_eliminateOne sym_toFactor
                  sym_getOrdering false (λ factors, reflexivity _) one_root)).
Defined.

(** The loop over a reverse iterator, recorded. *)
Example calls_for_each_reverse_123 :
  calls (for_each_reverse [1; 2; 3]) = [3; 2; 1].
Proof. by vm_compute. Qed.

(** The scenario of the specification (section 8): the factors [f(x1)] and
    [f(x1, x2)] build a tree with a clique for [x1] and one for [x2]; the
    update with [f(x2, x3)] then leaves three variables, each frontal in
    one clique. *)
Definition empty_tree : @BayesTree SymConditional :=
  {| cliques_ := ∅; nodes_ := ∅ |}.

Example scenario_three_variables :
  let t1 := (sym_update [[1]; [1; 2]] empty_tree).1 in
  let r := sym_update [[2; 3]] t1 in
  nodes_ t1 = {[ 1 := 1; 2 := 0 ]}
  ∧ r.2 = Ok tt
  ∧ nodes_ r.1 = {[ 1 := 2; 2 := 1; 3 := 0 ]}
  ∧ cliques_ r.1 = {[ 0 := sym_clique 3 [] None [1];
                      1 := sym_clique 2 [3] (Some 0) [2];
                      2 := sym_clique 1 [2] (Some 1) [] ]}.
Proof. by vm_compute. Qed.

(** The tree of the three-variable scenario. *)
Definition three_variables : @BayesTree SymConditional :=
  (sym_update [[2; 3]] (sym_update [[1]; [1; 2]] empty_tree).1).1.

(** The update of the three-variable tree with [f(x1, x4)] removes the
    clique of [x1] and eliminates [x2], [x1], [x4]; the insertion of the
    conditional on [x2], whose clique was not removed, throws after the
    conditionals on [x4] and [x1] were inserted, and they stay. *)
Lemma update_internal_throws_midway_witness :
  ∃ t', sym_update_internal [[1; 4]] [] three_variables = (t', Err StructuralError)
    ∧ nodes_ t' = {[ 1 := 3; 2 := 1; 3 := 0; 4 := 2 ]}
    ∧ nodes_ three_variables = {[ 1 := 2; 2 := 1; 3 := 0 ]}.
Proof.
  destruct (update_internal_throws_midway id sym_toFactor sym_getOrdering
              false (removeTop fst) (eliminate id sym_eliminateOne)
              (insert fst snd) [[1; 4]] [] three_variables)
    as (_ & _ & Hinsert).
  pose (t1 := (removeTop (Conditional:=SymConditional) fst [1; 4] [] []
                 three_variables).1).
  pose (t2 := (for_each [([4], []); ([1], [4])]
                 (λ c, insert fst snd c [2; 1; 4]) t1).1).
  exists (insert fst snd ([2], [1]) [2; 1; 4] t2).1. split; [|split].
  - apply (Hinsert t1 [([1], [2])] [] [] ([2], [1]) [([1], [4]); ([4], [])]
             t2 (insert fst snd ([2], [1]) [2; 1; 4] t2).1 StructuralError);
      by vm_compute.
  - by vm_compute.
  - by vm_compute.
Defined.

Definition one_root_rebuilt : @BayesTree SymConditional :=
  (sym_rebuild [[4]] [1] one_root).1.

Lemma one_root_rebuild :
  sym_rebuild [[4]] [1] one_root = (one_root_rebuilt, Ok ([1], [4])).
Proof. by vm_compute. Qed.

(** The update of [one_root] with [f(x4)] and the detached clique as an
    orphan: the loop over the orphans leaves the index as it was and
    appends the orphan to a child list. *)
Lemma orphan_loop_changes_links_only_witness :
  nodes_ (sym_update_internal [[4]] [1] one_root).1 = nodes_ one_root_rebuilt
  ∧ children_grown_by [1] one_root_rebuilt
      (sym_update_internal [[4]] [1] one_root).1.
Proof.
  destruct (orphan_loop_changes_links_only id sym_toFactor sym_getOrdering
              false (removeTop fst) (eliminate id sym_eliminateOne)
              (insert fst snd) [[4]] [1] [1] [4] one_root one_root_rebuilt
              (sym_update_internal [[4]] [1] one_root).1
              (sym_update_internal [[4]] [1] one_root).2
              one_root_rebuild)
    as (Hnodes & _ & _ & Hgrown).
  - apply surjective_pairing.
  - done.
Defined.

(** The search does not depend on the order of the separator, and it is
    the search of [insert] too: the factors [f(x1, x2)], [f(x2, x3)] and
    [f(x1, x3)] are eliminated in the order [x2], [x1], [x3], and the
    clique of [x2] given [x1, x3] is inserted below the clique of [x1]
    given [x3], not beside it. *)
Example parent_search_deepest_owner :
  (∀ ocl,
     cliques_ (sym_update_internal [[4]] [2]
                 {| cliques_ := <[2 := sym_clique 3 [2; 1] None []]>
                                  (cliques_ chain_tree);
                    nodes_ := nodes_ chain_tree |}).1 !! 2 = Some ocl →
     parent_ ocl = Some 1)
  ∧ sym_update [[1; 2]; [2; 3]; [1; 3]] empty_tree
    = ({| cliques_ := {[ 0 := sym_clique 3 [] None [1];
                        1 := sym_clique 1 [3] (Some 0) [2];
                        2 := sym_clique 2 [1; 3] (Some 1) [] ]};
          nodes_ := {[ 1 := 1; 2 := 2; 3 := 0 ]} |}, Ok tt).
Proof.
  split; [|by vm_compute].
  intros ocl Hocl. apply (inj Some) in Hocl. by rewrite <-Hocl.
Qed.

End ISAM.

(** ** discrete/DiscreteValues.cpp *)

Module Discrete.

Definition Key : Type := nat.

(** [DiscreteValues] is a [std::map<Key, size_t>], [Names] a
    [std::map<Key, std::vector<std::string>>]. *)
Abbreviation DiscreteValues := (gmap Key nat).
Abbreviation Names := (gmap Key (list string)).

(** A call returns, throws, or has no defined behaviour: [operator[]] of a
    vector past its end. *)
Inductive outcome (A : Type) : Type :=
  | Returns (a : A)
  | Throws (e : exn)
  | Undefined.
Arguments Returns {A} a.
Arguments Throws {A} e.
Arguments Undefined {A}.

#[global] Instance outcome_ret : MRet outcome := λ A a, Returns a.
#[global] Instance outcome_bind : MBind outcome := λ A B k r,
  match r with
  | Returns a => k a
  | Throws e => Throws e
  | Undefined => Undefined
  end.

(** [names.at(key)]: the checked lookup of [std::map]. *)
Definition Names_at (names : Names) (key : Key) : outcome (list string) :=
  match names !! key with
  | Some v => Returns v
  | None => Throws out_of_range
  end.

(** [v[index]]: the unchecked access of [std::vector]. *)
Definition vector_index (v : list string) (index : nat) : outcome string :=
  match v !! index with
  | Some s => Returns s
  | None => Undefined
  end.

Definition Translate (names : Names) (key : Key) (index : nat) : outcome string :=
  if decide (names = ∅) then
    Returns (pretty index)
  else
    v ← Names_at names key;
    vector_index v index.

(** The entries of a [std::map], in the order of its iteration: by
    increasing key. *)
Definition by_key : relation (Key * nat) := λ kv1 kv2, kv1.1 ≤ kv2.1.

#[global] Instance by_key_dec : RelDecision by_key := λ kv1 kv2, decide (kv1.1 ≤ kv2.1).

Definition entries (values : DiscreteValues) : list (Key * nat) :=
  merge_sort by_key (map_to_list values).

Definition nl : string := String (Ascii.ascii_of_nat 10) EmptyString.

Section markup.

Variable keyFormatter : Key → string.

(** The loop over the entries, writing one row each into the stream. *)
Fixpoint rows (row : string → string → string) (names : Names)
    (kvs : list (Key * nat)) (ss : string) : outcome string :=
  match kvs with
  | [] => Returns ss
  | kv :: kvs =>
      value ← Translate names kv.1 kv.2;
      rows row names kvs (ss +:+ row (keyFormatter kv.1) value)
  end.

Definition markdown (values : DiscreteValues) (names : Names) : outcome string :=
  (* Print out header and separator with alignment hints. *)
  let ss := "|Variable|value|" +:+ nl +:+ "|:-:|:-:|" +:+ nl in
  (* Print out all rows. *)
  rows (λ variable value, "|" +:+ variable +:+ "|" +:+ value +:+ "|" +:+ nl)
    names (entries values) ss.

Definition html (values : DiscreteValues) (names : Names) : outcome string :=
  (* Print out preamble. *)
  let ss := "<div>" +:+ nl +:+ "<table class='DiscreteValues'>" +:+ nl
            +:+ "  <thead>" +:+ nl in
  (* Print out header row. *)
  let ss := ss +:+ "    <tr><th>Variable</th><th>value</th></tr>" +:+ nl in
  (* Finish header and start body. *)
  let ss := ss +:+ "  </thead>" +:+ nl +:+ "  <tbody>" +:+ nl in
  (* Print out all rows. *)
  ss ← rows (λ variable value,
               "    <tr>" +:+ "<th>" +:+ variable +:+ "</th><td>" +:+ value
               +:+ "</td>" +:+ "</tr>" +:+ nl)
         names (entries values) ss;
  Returns (ss +:+ "  </tbody>" +:+ nl +:+ "</table>" +:+ nl +:+ "</div>").

(** Every entry of [values] has its name in [names]. *)
Definition named (names : Names) (values : DiscreteValues) : Prop :=
  ∀ key index, values !! key = Some index →
    ∃ v s, names !! key = Some v ∧ v !! index = Some s.

Lemma elem_of_entries values key index :
  (key, index) ∈ entries values ↔ values !! key = Some index.
Proof.
  unfold entries. rewrite merge_sort_Permutation.
  apply elem_of_map_to_list.
Qed.

Lemma Translate_Returns names key index :
  (∃ s, Translate names key index = Returns s)
  ↔ names = ∅ ∨ ∃ v s, names !! key = Some v ∧ v !! index = Some s.
Proof.
  unfold Translate, Names_at, vector_index.
  destruct (decide (names = ∅)) as [Hempty|Hnames].
  { split; [by left|]. intros _. by eexists. }
  destruct (names !! key) as [v|]; simpl.
  - destruct (v !! index) as [s|] eqn:Hindex.
    + split; [|by eexists]. intros _. right. by exists v, s.
    + split; [by intros [? [=]]|].
      intros [?|(v' & s & [= <-] & Hs)]; [done|congruence].
  - split; [by intros [? [=]]|]. by intros [?|(? & ? & [=] & _)].
Qed.

Lemma Translate_Throws names key index e :
  Translate names key index = Throws e →
  e = out_of_range ∧ names ≠ ∅ ∧ names !! key = None.
Proof.
  unfold Translate, Names_at, vector_index.
  destruct (decide (names = ∅)); [done|].
  destruct (names !! key) as [v|]; simpl.
  - by destruct (v !! index).
  - by intros [= <-].
Qed.

Lemma rows_Returns row names kvs ss :
  (∃ s, rows row names kvs ss = Returns s)
  ↔ ∀ kv, kv ∈ kvs → ∃ s, Translate names kv.1 kv.2 = Returns s.
Proof.
  revert ss. induction kvs as [|kv kvs IH]; intros ss; simpl.
  { split; [by intros _ ? ?%elem_of_nil|]. intros _. by eexists. }
  destruct (Translate names kv.1 kv.2) as [value| |] eqn:Hkv; simpl.
  - rewrite IH. split.
    + intros Hrest kv' [->|?]%elem_of_cons; [by eexists|by apply Hrest].
    + intros Hall kv' ?. apply Hall. by right.
  - split; [by intros [? [=]]|]. intros Hall.
    destruct (Hall kv) as [s Hs]; [by left|congruence].
  - split; [by intros [? [=]]|]. intros Hall.
    destruct (Hall kv) as [s Hs]; [by left|congruence].
Qed.

Lemma rows_Throws row names kvs ss e :
  rows row names kvs ss = Throws e →
  ∃ kv, kv ∈ kvs ∧ Translate names kv.1 kv.2 = Throws e.
Proof.
  revert ss. induction kvs as [|kv kvs IH]; intros ss; simpl; [done|].
  destruct (Translate names kv.1 kv.2) as [value|e'|] eqn:Hkv; simpl.
  - intros (kv' & ? & ?)%IH. exists kv'. split; [by right|done].
  - intros [= <-]. exists kv. split; [by left|done].
  - done.
Qed.

(** The outcome of the loop does not depend on what a row looks like,
    beyond the string that is returned. *)
Lemma rows_outcome row1 row2 names kvs ss1 ss2 :
  match rows row1 names kvs ss1, rows row2 names kvs ss2 with
  | Returns _, Returns _ => True
  | Throws e1, Throws e2 => e1 = e2
  | Undefined, Undefined => True
  | _, _ => False
  end.
Proof.
  revert ss1 ss2. induction kvs as [|kv kvs IH]; intros ss1 ss2; simpl; [done|].
  destruct (Translate names kv.1 kv.2) as [value|e'|]; simpl; [apply IH|done..].
Qed.

Lemma named_entries names values :
  (∀ kv, kv ∈ entries values → ∃ s, Translate names kv.1 kv.2 = Returns s)
  ↔ names = ∅ ∨ named names values.
Proof.
  split.
  - intros Hall. destruct (decide (names = ∅)) as [?|Hnames]; [by left|].
    right. intros key index Hkey.
    destruct (proj1 (Translate_Returns names key index)) as [?|?]; [|done..].
    apply (Hall (key, index)). by apply elem_of_entries.
  - intros Hnamed [key index] Hin%elem_of_entries. apply Translate_Returns.
    destruct Hnamed as [?|Hnamed]; [by left|right]. by apply Hnamed.
Qed.

(** X11.  [markdown] and [html] return exactly when [names] is empty or
    has, for every entry of the values, the key with a name at the index of
    its value; they have the same outcome on every input; and what they
    throw is the exception of the checked lookup [names.at(key)], for a key
    of the values that a non-empty [names] lacks. *)
Theorem markdown_html_outcome (values : DiscreteValues) (names : Names) :
  ((∃ s, markdown values names = Returns s) ↔ names = ∅ ∨ named names values)
  ∧ ((∃ s, html values names = Returns s) ↔ names = ∅ ∨ named names values)
  ∧ (∀ e, markdown values names = Throws e ↔ html values names = Throws e)
  ∧ (markdown values names = Undefined ↔ html values names = Undefined)
  ∧ (∀ e, markdown values names = Throws e →
       e = out_of_range ∧ names ≠ ∅
       ∧ ∃ key, is_Some (values !! key) ∧ names !! key = None).
Proof.
  assert (∀ row1 row2 ss1 ss2 (close : string → string),
            (∀ e, rows row1 names (entries values) ss1 = Throws e
                  ↔ rows row2 names (entries values) ss2
                    ≫= (λ ss, Returns (close ss)) = Throws e)
            ∧ (rows row1 names (entries values) ss1 = Undefined
               ↔ rows row2 names (entries values) ss2
                 ≫= (λ ss, Returns (close ss)) = Undefined)) as Hsame.
  { intros row1 row2 ss1 ss2 close.
    pose proof (rows_outcome row1 row2 names (entries values) ss1 ss2) as Hsame.
    destruct (rows row1 _ _ ss1), (rows row2 _ _ ss2); simpl in *;
      try done; by subst. }
  split; [|split; [|split; [|split]]].
  - unfold markdown. by rewrite rows_Returns, named_entries.
  - unfold html. rewrite <-named_entries.
    match goal with
    | |- (∃ s, rows ?row _ _ ?ss ≫= _ = _) ↔ _ =>
        rewrite <-(rows_Returns row names (entries values) ss);
        destruct (rows row names (entries values) ss)
    end; simpl; split; intros [s Hs]; by try eexists.
  - intros e. apply Hsame.
  - apply Hsame.
  - unfold markdown.
    intros e ([key index] & Hin%elem_of_entries & Hthrow)%rows_Throws.
    apply Translate_Throws in Hthrow as (-> & ? & ?).
    split; [done|]. split; [done|]. exists key. by split; [eexists|].
Qed.

End markup.

(** The values [{12: 1, 5: 0}] with the names of the tests, with names that
    lack the key [5], and with too few names for the key [12]. *)
Example markdown_names :
  markdown pretty {[ 12 := 1; 5 := 0 ]}
    {[ 12 := ["Zero"; "One"; "Two"]; 5 := ["-"; "+"] ]}
  = Returns ("|Variable|value|" +:+ nl +:+ "|:-:|:-:|" +:+ nl
             +:+ "|5|-|" +:+ nl +:+ "|12|One|" +:+ nl)
  ∧ markdown pretty {[ 12 := 1; 5 := 0 ]} ∅
    = Returns ("|Variable|value|" +:+ nl +:+ "|:-:|:-:|" +:+ nl
               +:+ "|5|0|" +:+ nl +:+ "|12|1|" +:+ nl)
  ∧ markdown pretty {[ 12 := 1; 5 := 0 ]} {[ 12 := ["Zero"; "One"; "Two"] ]}
    = Throws out_of_range
  ∧ html pretty {[ 12 := 1; 5 := 0 ]} {[ 12 := ["Zero"; "One"; "Two"] ]}
    = Throws out_of_range
  ∧ markdown pretty {[ 12 := 1; 5 := 0 ]} {[ 12 := ["Zero"]; 5 := ["-"; "+"] ]}
    = Undefined.
Proof. by vm_compute. Qed.

End Discrete.
